(** * serious: a spaced-repetition scheduler

    A shallow embedding of [serious.py] and the properties of its
    scheduling engine: the interval table, the trial transitions, the due
    queue (a binary heap kept in a Python list) and the review session.

    Conventions of the embedding:
    - Python [int] is [Z]; list positions used by [heapq] are [nat].
    - Python exceptions are the constructors of [exn]; a fallible
      computation returns a [result].
    - Python [float] values that the scheduler only adds, truncates and
      compares are kept abstract (class [PyFloat]); the rationals give an
      executable instance.  The interval table itself needs [math.exp] and
      [math.log] and is stated over the real numbers. *)

From Stdlib Require Import ZArith QArith Reals Lra Lia ZifyNat String Ascii.
From stdpp Require Import base tactics option list.

Local Open Scope Z_scope.

(** [lia] also decides goals with division by a constant. *)
Ltac Zify.zify_post_hook ::= Z.to_euclidean_division_equations.

(** ** Exceptions and results *)

Inductive exn : Type :=
| IndexError         (* list index out of range *)
| TypeError          (* subscripting [None] *)
| EOFError           (* [input()] at end of input *)
| IntegrityError     (* UNIQUE constraint failed *)
| ProgrammingError.  (* wrong number of SQL bindings *)

Inductive result (A : Type) : Type :=
| Ok (a : A)
| Raise (e : exn).
Arguments Ok {A} a.
Arguments Raise {A} e.

#[export] Instance result_ret : MRet result := fun _ a => Ok a.
#[export] Instance result_bind : MBind result := fun _ _ k r =>
  match r with
  | Ok a => k a
  | Raise e => Raise e
  end.

(** ** Floats as the scheduler uses them *)

Class PyFloat : Type := {
  float : Type;
  float_add : float -> float -> float;   (* x + y *)
  int_of_float : float -> Z;             (* int(x) *)
  int_le_float : Z -> float -> bool      (* i <= x *)
}.

(** Exact rationals: [int] truncates toward zero. *)
Definition Q_trunc (q : Q) : Z := Z.quot (Qnum q) (Z.pos (Qden q)).

#[export] Instance Q_float : PyFloat := {|
  float := Q;
  float_add := Qplus;
  int_of_float := Q_trunc;
  int_le_float := fun i x => Qle_bool (inject_Z i) x
|}.

(** ** Python list subscripting [l[i]], negative positions included *)

Definition getitem {A} (l : list A) (i : Z) : result A :=
  let n := Z.of_nat (length l) in
  let j := if i <? 0 then i + n else i in
  if (0 <=? j) && (j <? n) then
    match l !! Z.to_nat j with
    | Some x => Ok x
    | None => Raise IndexError
    end
  else Raise IndexError.

(** ** Items *)

Record Item : Type := mkItem {
  rowid : Z;
  review_time : Z;
  trial : Z
}.

#[export] Instance Item_inhabited : Inhabited Item := populate (mkItem 0 0 0).

(** [Item.__lt__] *)
Definition Item_lt (a b : Item) : bool := review_time a <? review_time b.

(** ** Trial transitions

    [now] is the value read from [time.time()] inside [_update_items]. *)

Section Transitions.
Context `{PyFloat}.

Definition _update_items (now : float) (item : Item) (intervals : list float)
    (trial : Z) : result Item :=
  d ← getitem intervals trial;
  Ok {| rowid := rowid item;
        review_time := int_of_float (float_add now d);
        trial := trial |}.

Definition add_success (now : float) (item : Item) (intervals : list float)
    : result Item :=
  _update_items now item intervals
    (Z.min (Z.of_nat (length intervals) - 1) (trial item + 1)).

Definition add_failure (now : float) (item : Item) (intervals : list float)
    : result Item :=
  _update_items now item intervals (trial item / 2).

End Transitions.

(** ** The interval table

    [compute_intervals(trials, hours)], with Python floats read as real
    numbers: [math.log] is [ln], [math.exp] is [exp].  Division by
    [trials = 0] raises, as does [math.log] outside its domain; both are
    reported as [None]. *)

Definition range (n : Z) : list Z := map Z.of_nat (seq 0 (Z.to_nat n)).

Definition compute_intervals (trials : Z) (hours : R) : option (list R) :=
  if Rle_dec (hours + 1) 0 then None
  else if Z.eq_dec trials 0 then None
  else
    let c := (ln (hours + 1) / IZR trials)%R in
    Some (map (fun n => ((exp (IZR n * c) - 1) * 60 * 60)%R) (range (trials + 1))).




(** ** heapq

    The list-based binary heap of Python's [heapq] module, which
    [serious.py] uses for its due queue; items are compared with
    [Item.__lt__].  Each [while] loop recurses on a counter that bounds
    its number of iterations, so the last equation of each loop is the
    loop's own exit. *)

(** The loop of [_siftdown(heap, startpos, pos)]: move [newitem] toward
    the root, shifting parents down. *)
Fixpoint _siftdown_loop (n : nat) (heap : list Item) (startpos pos : nat)
    (newitem : Item) : list Item :=
  match n with
  | O => <[pos := newitem]> heap
  | S n' =>
      if decide (startpos < pos)%nat then
        let parentpos := ((pos - 1) / 2)%nat in      (* (pos - 1) >> 1 *)
        let parent := heap !!! parentpos in
        if Item_lt newitem parent then
          _siftdown_loop n' (<[pos := parent]> heap) startpos parentpos newitem
        else <[pos := newitem]> heap
      else <[pos := newitem]> heap
  end.

Definition _siftdown (heap : list Item) (startpos pos : nat) : list Item :=
  _siftdown_loop pos heap startpos pos (heap !!! pos).

(** The loop of [_siftup(heap, pos)]: bubble the smaller child up until a
    leaf is reached; returns the heap and the position of the leaf. *)
Fixpoint _siftup_loop (n : nat) (heap : list Item) (endpos pos childpos : nat)
    : list Item * nat :=
  match n with
  | O => (heap, pos)
  | S n' =>
      if decide (childpos < endpos)%nat then
        let rightpos := (childpos + 1)%nat in
        let childpos :=
          if bool_decide (rightpos < endpos)%nat
             && negb (Item_lt (heap !!! childpos) (heap !!! rightpos))
          then rightpos else childpos in
        _siftup_loop n' (<[pos := heap !!! childpos]> heap) endpos
          childpos (2 * childpos + 1)%nat
      else (heap, pos)
  end.

Definition _siftup (heap : list Item) (pos : nat) : list Item :=
  let endpos := length heap in
  let startpos := pos in
  let newitem := heap !!! pos in
  let '(heap, pos) := _siftup_loop endpos heap endpos pos (2 * pos + 1)%nat in
  _siftdown (<[pos := newitem]> heap) startpos pos.

Definition heappush (heap : list Item) (item : Item) : list Item :=
  let heap := heap ++ [item] in
  _siftdown heap 0 (length heap - 1).

(** [heappop] returns the popped item and the list as it is left. *)
Definition heappop (heap : list Item) : result (Item * list Item) :=
  match last heap with
  | None => Raise IndexError
  | Some lastelt =>
      match removelast heap with
      | [] => Ok (lastelt, [])
      | returnitem :: rest =>
          Ok (returnitem, _siftup (lastelt :: rest) 0)
      end
  end.

(** [for i in reversed(range(k)): _siftup(x, i)] *)
Fixpoint heapify_loop (k : nat) (x : list Item) : list Item :=
  match k with
  | O => x
  | S i => heapify_loop i (_siftup x i)
  end.

Definition heapify (x : list Item) : list Item :=
  heapify_loop (length x / 2) x.


(** The review time of the item at position [i]. *)
Definition key_at (h : list Item) (i : nat) : Z := review_time (h !!! i).

(** The heap invariant of [heapq]: no item is smaller than its parent. *)
Definition is_heap (h : list Item) : Prop :=
  forall i : nat, (0 < i < length h)%nat ->
    key_at h ((i - 1) / 2) <= key_at h i.

(** Every item at a position whose parent is at or after [k] is at least
    its parent. *)
Definition heap_from (k : nat) (h : list Item) : Prop :=
  forall i : nat, (0 < i < length h)%nat -> (k <= (i - 1) / 2)%nat ->
    key_at h ((i - 1) / 2) <= key_at h i.

(** The positions of the subtree rooted at [s]. *)
Inductive below (s : nat) : nat -> Prop :=
| below_root : below s s
| below_child (p c : nat) :
    below s p -> (0 < c)%nat -> ((c - 1) / 2 = p)%nat -> below s c.



(** ** The card table

    The SQLite table [Item]: its rows in table order, each with its
    implicit [rowid]. *)

Module DBRow.
Record t : Type := mk {
  rowid : Z;
  recalled : Z;
  forgot : Z;
  review_time : Z;
  trial : Z;
  question : string;
  answer : string;
  history : string;
  deck : string
}.
End DBRow.

Abbreviation DB := (list DBRow.t).

Module ReviewItem.
Record t : Type := mk {
  item : Item;
  recalled : Z;
  forgot : Z;
  question : string;
  answer : string;
  history : string
}.
End ReviewItem.

(** The [WHERE] clause of [load_items]: absent when [decks] is empty. *)
Definition deck_selected (decks : list string) (r : DBRow.t) : bool :=
  match decks with
  | [] => true
  | _ => existsb (String.eqb (DBRow.deck r)) decks
  end.

Definition load_items (db : DB) (decks : list string) : list Item :=
  heapify
    (map (fun r => mkItem (DBRow.rowid r) (DBRow.review_time r) (DBRow.trial r))
       (List.filter (deck_selected decks) db)).

(** The [UPDATE] statement of [update_item], applied to one row. *)
Definition update_row (item : Item) (success : bool) (r : DBRow.t) : DBRow.t :=
  if DBRow.rowid r =? rowid item then
    {| DBRow.rowid := DBRow.rowid r;
       DBRow.recalled := if success then DBRow.recalled r + 1 else DBRow.recalled r;
       DBRow.forgot := if success then DBRow.forgot r else DBRow.forgot r + 1;
       DBRow.review_time := review_time item;
       DBRow.trial := trial item;
       DBRow.question := DBRow.question r;
       DBRow.answer := DBRow.answer r;
       DBRow.history := (DBRow.history r ++ (if success then "o" else "x"))%string;
       DBRow.deck := DBRow.deck r |}
  else r.

Definition update_item (item : Item) (db : DB) (success : bool) : DB :=
  map (update_row item success) db.

Definition make_review_item (item : Item) (db : DB) : result ReviewItem.t :=
  match List.find (fun r => DBRow.rowid r =? rowid item) db with
  | Some row =>
      Ok (ReviewItem.mk item (DBRow.recalled row) (DBRow.forgot row)
            (DBRow.question row) (DBRow.answer row) (DBRow.history row))
  | None => Raise TypeError
  end.

(** *** Import *)

Definition next_rowid (db : DB) : Z :=
  1 + fold_right Z.max 0 (map DBRow.rowid db).

(** One [INSERT INTO Item (question, answer, deck) VALUES (?, ?, ?)]. *)
Definition insert_row (db : DB) (params : list string) : result DB :=
  match params with
  | [q; a; d] =>
      if existsb (fun r => String.eqb (DBRow.question r) q) db
      then Raise IntegrityError
      else Ok (db ++ [DBRow.mk (next_rowid db) 0 0 0 0 q a "" d])
  | _ => Raise ProgrammingError
  end.

(** [_insert_into_item]: [executemany] in one transaction; when a row
    raises, the whole batch is rolled back (the caller keeps its [db]). *)
Fixpoint _insert_into_item (db : DB) (batch : list (list string)) : result DB :=
  match batch with
  | [] => Ok db
  | params :: batch' =>
      db' ← insert_row db params;
      _insert_into_item db' batch'
  end.

(** [add_items]: the outcome and the table as it is left. *)
Fixpoint add_items_loop (db : DB) (deck : string) (csv_rows : list (list string))
    (batch : list (list string)) (batch_size : nat) : result unit * DB :=
  match csv_rows with
  | [] =>
      match batch with
      | [] => (Ok tt, db)
      | _ =>
          match _insert_into_item db batch with
          | Ok db' => (Ok tt, db')
          | Raise e => (Raise e, db)
          end
      end
  | row :: csv_rows' =>
      let batch := batch ++ [row ++ [deck]] in
      if (batch_size <=? length batch)%nat then
        match _insert_into_item db batch with
        | Ok db' => add_items_loop db' deck csv_rows' [] batch_size
        | Raise e => (Raise e, db)
        end
      else add_items_loop db deck csv_rows' batch batch_size
  end.

Definition add_items (db : DB) (deck : string) (csv_rows : list (list string))
    (batch_size : nat) : result unit * DB :=
  add_items_loop db deck csv_rows [] batch_size.

(** ** Console and session events *)

Inductive event : Type :=
| AskQuestion (ri : ReviewItem.t)     (* the question prompt *)
| AskAnswer (ri : ReviewItem.t)       (* the answer prompt *)
| BlankLine                           (* [print()] *)
| NextReview (t : Z)                  (* [Next review scheduled for ...] *)
| NoCards                             (* [No cards scheduled for review. ...] *)
| Duplicate (filename : string).      (* [Duplicate question in file ...] *)

(** [add_items_from_files]: every file is given with the rows that
    [csv.reader] yields for it; [add_items] runs with its default batch
    size. *)
Fixpoint add_items_from_files (db : DB) (deck : string)
    (files : list (string * list (list string))) (out : list event)
    : result unit * DB * list event :=
  match files with
  | [] => (Ok tt, db, out)
  | (csv_filename, csv_rows) :: files' =>
      match add_items db deck csv_rows 1000 with
      | (Ok _, db') => add_items_from_files db' deck files' out
      | (Raise IntegrityError, db') =>
          add_items_from_files db' deck files' (out ++ [Duplicate csv_filename])
      | (Raise e, db') => (Raise e, db', out)
      end
  end.

(** ** The review session *)

(** What the program reads and writes while it runs. *)
Record World : Type := mkWorld {
  db : DB;                 (* the card table *)
  stdin : list string;     (* the lines still to be read by [input()] *)
  ticks : nat;             (* how many times the clock has been read *)
  stdout : list event      (* what has been printed *)
}.

Definition M (A : Type) : Type := World -> result A * World.

#[export] Instance M_ret : MRet M := fun _ a w => (Ok a, w).
#[export] Instance M_bind : MBind M := fun _ _ k m w =>
  match m w with
  | (Ok a, w') => k a w'
  | (Raise e, w') => (Raise e, w')
  end.

Definition lift {A} (r : result A) : M A := fun w => (r, w).
Definition get_db : M DB := fun w => (Ok (db w), w).
Definition put_db (d : DB) : M unit :=
  fun w => (Ok tt, mkWorld d (stdin w) (ticks w) (stdout w)).
Definition print (e : event) : M unit :=
  fun w => (Ok tt, mkWorld (db w) (stdin w) (ticks w) (stdout w ++ [e])).
Definition input : M string := fun w =>
  match stdin w with
  | [] => (Raise EOFError, w)
  | x :: rest => (Ok x, mkWorld (db w) rest (ticks w) (stdout w))
  end.

(** [_prompt]: print the prompt, then read a line.  The text-to-speech
    hook is off ([SERIOUS_TTS] is not set). *)
Definition _prompt (prompt : event) : M string :=
  _ ← print prompt; input.

(** The inner loop of [review]: wait for [r] or [f]. *)
Fixpoint review_answer (n : nat) (review_item : ReviewItem.t) : M (option bool) :=
  match n with
  | O => lift (Raise EOFError)
  | S n' =>
      y ← _prompt (AskAnswer review_item);
      if String.eqb y "r" then mret (Some true)
      else if String.eqb y "f" then mret (Some false)
      else review_answer n' review_item
  end.

(** The outer loop of [review]: wait for [q] or [a]. *)
Fixpoint review_question (n : nat) (review_item : ReviewItem.t) : M (option bool) :=
  match n with
  | O => lift (Raise EOFError)
  | S n' =>
      x ← _prompt (AskQuestion review_item);
      if String.eqb x "q" then mret None
      else if negb (String.eqb x "a") then review_question n' review_item
      else review_answer n' review_item
  end.

(** [review]: [Some true] recalled, [Some false] forgot, [None] quit.
    Every turn of either loop reads a line, so one more turn than there
    are lines left always reaches the end of input. *)
Definition review (review_item : ReviewItem.t) : M (option bool) :=
  fun w => review_question (S (length (stdin w))) review_item w.

Section Session.
Context `{PyFloat}.
(** The clock: the value of the [n]-th call of [time.time()]. *)
Variable clock : nat -> float.

Definition time : M float := fun w =>
  (Ok (clock (ticks w)), mkWorld (db w) (stdin w) (S (ticks w)) (stdout w)).

(** The loop test of [start_review]. *)
Definition due (items : list Item) : M bool :=
  match items with
  | [] => mret false
  | first :: _ => now ← time; mret (int_le_float (review_time first) now)
  end.

Definition update_item_in_db (item : Item) (success : bool) : M unit :=
  d ← get_db; put_db (update_item item d success).

(** The body of the loop of [start_review]: the list [items] as it is
    left, and whether the loop goes on ([false] after [break]). *)
Definition start_review_body (items : list Item) (intervals : list float)
    : M (bool * list Item) :=
  '(item, items) ← lift (heappop items);
  review_item ← (d ← get_db; lift (make_review_item item d));
  result ← review review_item;
  match result with
  | Some true =>
      now ← time;
      item ← lift (add_success now item intervals);
      _ ← update_item_in_db item true;
      let items := heappush items item in
      _ ← print BlankLine;
      mret (true, items)
  | Some false =>
      now ← time;
      item ← lift (add_failure now item intervals);
      _ ← update_item_in_db item false;
      let items := heappush items item in
      _ ← print BlankLine;
      mret (true, items)
  | None => mret (false, items)
  end.

(** [start_review]; [None] when the counter [n] runs out before the
    loop ends, otherwise the outcome with the list [items] as it is
    left. *)
Fixpoint start_review_loop (n : nat) (items : list Item)
    (intervals : list float) (w : World)
    : option (result (list Item) * World) :=
  match n with
  | O => None
  | S n' =>
      match due items w with
      | (Ok true, w) =>
          match start_review_body items intervals w with
          | (Ok (true, items), w) => start_review_loop n' items intervals w
          | (Ok (false, items), w) => Some (Ok items, w)
          | (Raise e, w) => Some (Raise e, w)
          end
      | (Ok false, w) => Some (Ok items, w)
      | (Raise e, w) => Some (Raise e, w)
      end
  end.

(** Every turn of the loop that does not end it reads a line. *)
Definition start_review (items : list Item) (intervals : list float)
    : World -> option (result (list Item) * World) :=
  fun w => start_review_loop (S (length (stdin w))) items intervals w.

(** The last part of [main]: load, review, report the next review. *)
Definition main_review (decks : list string) (intervals : list float)
    : World -> option (result unit * World) :=
  fun w =>
  match load_items (db w) decks with
  | [] => Some (print NoCards w)
  | items =>
      match start_review items intervals w with
      | None => None
      | Some (Raise e, w') => Some (Raise e, w')
      | Some (Ok items', w') =>
          Some ((first ← lift (getitem items' 0);
                 print (NextReview (review_time first))) w')
      end
  end.
End Session.

(** The lists that a session can hold: the list built by [load_items],
    then changed by [heappop] and [heappush]. *)
Inductive due_queue (db : DB) (decks : list string) : list Item -> Prop :=
| due_queue_loaded : due_queue db decks (load_items db decks)
| due_queue_popped (h : list Item) (x : Item) (h' : list Item) :
    due_queue db decks h -> heappop h = Ok (x, h') -> due_queue db decks h'
| due_queue_pushed (h : list Item) (x : Item) :
    due_queue db decks h -> due_queue db decks (heappush h x).

(** ** Example data *)

Definition example_clock : nat -> Q := fun n => inject_Z (1000 + Z.of_nat n).
Definition example_intervals : list Q := [inject_Z 0; inject_Z 10; inject_Z 100].
Definition card1 : DBRow.t := DBRow.mk 1 0 0 0 0 "q1" "a1" "" "default".

(** ** Import: what is in the table *)

Definition questions (db : DB) : list string := map DBRow.question db.


(** The questions are new: pairwise distinct and absent from the table. *)
Definition fresh (db : DB) (qs : list string) : Prop :=
  NoDup qs /\ forall q, q ∈ qs -> q ∉ questions db.


(** The rows that a batch of parameter lists inserts. *)
Definition inserted_as (added : list DBRow.t) (batch : list (list string)) : Prop :=
  Forall2 (fun r p =>
             p = [DBRow.question r; DBRow.answer r; DBRow.deck r]) added batch.


(** The part of the world that the dialogue leaves alone. *)
Definition same_store (w w' : World) : Prop :=
  db w' = db w /\ ticks w' = ticks w.

(** Lines that the question prompt ignores. *)
Definition ignored_at_question (x : string) : Prop :=
  x <> "q"%string /\ x <> "a"%string.

(** ** Further notions used by the properties *)

(** The projection of a row that [load_items] selects. *)
Definition item_of_row (r : DBRow.t) : Item :=
  mkItem (DBRow.rowid r) (DBRow.review_time r) (DBRow.trial r).

(** How many times the marker [c] occurs in a history. *)
Fixpoint count_marker (c : ascii) (s : string) : Z :=
  match s with
  | EmptyString => 0
  | String a s' => (if Ascii.eqb a c then 1 else 0) + count_marker c s'
  end.

(** The counters of a row agree with its history. *)
Definition tallied (r : DBRow.t) : Prop :=
  DBRow.recalled r = count_marker "o" (DBRow.history r) /\
  DBRow.forgot r = count_marker "x" (DBRow.history r).

(** A card as the schema of [make_db] creates it: every column that the
    [INSERT] of [_insert_into_item] leaves out has its default. *)
Definition new_card (deck : string) (r : DBRow.t) : Prop :=
  DBRow.recalled r = 0 /\ DBRow.forgot r = 0 /\ DBRow.review_time r = 0 /\
  DBRow.trial r = 0 /\ DBRow.history r = ""%string /\ DBRow.deck r = deck.

(** The keys of the table: [rowid]s and (by [UNIQUE]) questions occur
    once. *)
Definition well_keyed (db : DB) : Prop :=
  NoDup (map DBRow.rowid db) /\ NoDup (questions db).

(** What one import can do to the table: append new cards of the deck,
    each with a [rowid] above all earlier ones and a question that no
    earlier row has. *)
Inductive grown (deck : string) (db : DB) : DB -> Prop :=
| grown_refl : grown deck db db
| grown_step (db' : DB) (r : DBRow.t) :
    grown deck db db' ->
    new_card deck r ->
    DBRow.rowid r = next_rowid db' ->
    (DBRow.question r ∉ questions db') ->
    grown deck db (db' ++ [r]).

(** Lines that the answer prompt ignores. *)
Definition ignored_at_answer (y : string) : Prop :=
  y <> "r"%string /\ y <> "f"%string.

(** The history field of the status line of [review]:
    [(history[-5:][::-1] + '-----')[:5]]. *)
Definition history_window (history : string) : string :=
  let h := list_ascii_of_string history in
  string_of_list_ascii
    (take 5 (reverse (drop (length h - 5) h) ++ list_ascii_of_string "-----")).

(** The list of a session and the table agree: no two items share a
    [rowid], and every item is the projection of a row, with a trial
    that is a position of an interval table of [n] entries. *)
Definition queue_ok (n : nat) (items : list Item) (d : DB) : Prop :=
  NoDup (map rowid items) /\
  Forall (fun it => it ∈ map item_of_row d /\ 0 <= trial it < Z.of_nat n) items.

(** The two tables hold the same cards, in the same order. *)
Definition same_cards (d d' : DB) : Prop :=
  map DBRow.rowid d' = map DBRow.rowid d /\
  map DBRow.question d' = map DBRow.question d /\
  map DBRow.answer d' = map DBRow.answer d /\
  map DBRow.deck d' = map DBRow.deck d.

(** What a session prints. *)
Definition session_event (e : event) : Prop :=
  match e with
  | AskQuestion _ | AskAnswer _ | BlankLine => True
  | _ => False
  end.

(** ** The [--decks] option

    [args.decks = list(filter(None, args.decks.strip().split(',')))],
    on the characters of the option; [isspace] says which characters
    [str.strip] removes. *)

Section CommandLine.
Variable isspace : ascii -> bool.

Fixpoint str_lstrip (s : list ascii) : list ascii :=
  match s with
  | c :: s' => if isspace c then str_lstrip s' else s
  | [] => []
  end.

Definition str_strip (s : list ascii) : list ascii :=
  reverse (str_lstrip (reverse (str_lstrip s))).

(** [s.split(sep)]: the pieces between the separators, one more than
    there are separators. *)
Fixpoint str_split (sep : ascii) (s : list ascii) : list (list ascii) :=
  match s with
  | [] => [[]]
  | c :: s' =>
      if Ascii.eqb c sep then [] :: str_split sep s'
      else
        match str_split sep s' with
        | p :: ps => (c :: p) :: ps
        | [] => [[c]]
        end
  end.

Definition args_decks (decks : string) : list string :=
  map string_of_list_ascii
    (List.filter (fun p => negb (Nat.eqb (length p) 0))
       (str_split "," (str_strip (list_ascii_of_string decks)))).
End CommandLine.

(* ================================================================= *)
(** * Properties *)

(** ** Python subscripting *)



(** ** Trial transitions *)

Section TransitionFacts.
Context `{PyFloat}.




End TransitionFacts.









(** ** The interval table *)



Section IntervalFacts.
Local Open Scope R_scope.





End IntervalFacts.



(** ** The review dialogue *)

Lemma M_bind_eq {A B} (m : M A) (k : A -> M B) (w : World) :
  (m ≫= k) w =
    match m w with
    | (Ok a, w') => k a w'
    | (Raise e, w') => (Raise e, w')
    end.
Proof. reflexivity. Qed.

Lemma review_answer_spec (n : nat) (ri : ReviewItem.t) : forall (w : World) r w',
  (length (stdin w) < n)%nat ->
  review_answer n ri w = (r, w') ->
  same_store w w' /\
  (exists used, stdin w = used ++ stdin w' /\
     match r with
     | Ok o =>
         exists junk y, used = junk ++ [y] /\
           ((y = "r"%string /\ o = Some true) \/ (y = "f"%string /\ o = Some false))
     | Raise e => e = EOFError /\ stdin w' = []
     end) /\
  (exists evs, stdout w' = stdout w ++ evs /\ Forall (eq (AskAnswer ri)) evs).
Proof.
  induction n as [|n IH]; intros w r w' Hn Hrun; [lia|].
  simpl in Hrun. unfold _prompt in Hrun. rewrite !M_bind_eq in Hrun.
  simpl in Hrun. unfold input in Hrun. simpl in Hrun.
  destruct (stdin w) as [|y rest] eqn:Hin.
  { injection Hrun as <- <-. split; [done|]. simpl. split.
    - by exists [].
    - exists [AskAnswer ri]. split; [done|]. by repeat constructor. }
  destruct (String.eqb_spec y "r") as [->|Hr].
  { injection Hrun as <- <-. split; [done|]. simpl. split.
    - exists ["r"%string]. split; [done|].
      exists [], "r"%string. split; [done|]. by left.
    - exists [AskAnswer ri]. split; [done|]. by repeat constructor. }
  destruct (String.eqb_spec y "f") as [->|Hf].
  { injection Hrun as <- <-. split; [done|]. simpl. split.
    - exists ["f"%string]. split; [done|].
      exists [], "f"%string. split; [done|]. by right.
    - exists [AskAnswer ri]. split; [done|]. by repeat constructor. }
  apply IH in Hrun as ([Hdb Htk] & (used & Hused & Hr') & (evs & Hevs & Hall));
    [|simpl in *; lia].
  simpl in *. split; [done|]. split.
  - exists (y :: used). split; [by rewrite Hused|].
    destruct r as [o|e]; [|done].
    destruct Hr' as (junk & y' & -> & Hy').
    by exists (y :: junk), y'.
  - exists (AskAnswer ri :: evs). split.
    + by rewrite Hevs, <- app_assoc.
    + by constructor.
Qed.

Lemma review_question_spec (n : nat) (ri : ReviewItem.t) : forall (w : World) r w',
  (length (stdin w) < n)%nat ->
  review_question n ri w = (r, w') ->
  same_store w w' /\
  (exists used, stdin w = used ++ stdin w' /\
     match r with
     | Ok None => exists junk, used = junk ++ ["q"%string]
     | Ok (Some b) =>
         exists junk y, used = junk ++ [y] /\
           ((y = "r"%string /\ b = true) \/ (y = "f"%string /\ b = false))
     | Raise e => e = EOFError /\ stdin w' = []
     end) /\
  (exists evs, stdout w' = stdout w ++ AskQuestion ri :: evs /\
     Forall (fun e => e = AskQuestion ri \/ e = AskAnswer ri) evs).
Proof.
  induction n as [|n IH]; intros w r w' Hn Hrun; [lia|].
  simpl in Hrun. unfold _prompt in Hrun. rewrite !M_bind_eq in Hrun.
  simpl in Hrun. unfold input in Hrun. simpl in Hrun.
  destruct (stdin w) as [|x rest] eqn:Hin.
  { injection Hrun as <- <-. split; [done|]. simpl. split.
    - by exists [].
    - exists []. split; [done|]. constructor. }
  destruct (String.eqb_spec x "q") as [->|Hq].
  { injection Hrun as <- <-. split; [done|]. simpl. split.
    - exists ["q"%string]. split; [done|]. by exists [].
    - exists []. split; [done|]. constructor. }
  destruct (String.eqb_spec x "a") as [->|Ha]; simpl in Hrun.
  - apply review_answer_spec in Hrun
      as ([Hdb Htk] & (used & Hused & Hr') & (evs & Hevs & Hall));
      [|simpl in *; lia].
    simpl in *. split; [done|]. split.
    + exists ("a"%string :: used). split; [by rewrite Hused|].
      destruct r as [o|e]; [|done].
      destruct Hr' as (junk & y & -> & [[-> ->]|[-> ->]]).
      * exists ("a"%string :: junk), "r"%string. split; [done|]. by left.
      * exists ("a"%string :: junk), "f"%string. split; [done|]. by right.
    + exists evs. split; [by rewrite Hevs, <- app_assoc|].
      eapply Forall_impl; [exact Hall|]. intros e <-. by right.
  - apply IH in Hrun as ([Hdb Htk] & (used & Hused & Hr') & (evs & Hevs & Hall));
      [|simpl in *; lia].
    simpl in *. split; [done|]. split.
    + exists (x :: used). split; [by rewrite Hused|].
      destruct r as [[b|]|e]; [| |done].
      * destruct Hr' as (junk & y & -> & Hy). by exists (x :: junk), y.
      * destruct Hr' as (junk & ->). by exists (x :: junk).
    + exists (AskQuestion ri :: evs). split; [by rewrite Hevs, <- app_assoc|].
      constructor; [by left|done].
Qed.

Lemma review_spec (ri : ReviewItem.t) (w : World) r w' :
  review ri w = (r, w') ->
  same_store w w' /\
  (exists used, stdin w = used ++ stdin w' /\
     match r with
     | Ok None => exists junk, used = junk ++ ["q"%string]
     | Ok (Some b) =>
         exists junk y, used = junk ++ [y] /\
           ((y = "r"%string /\ b = true) \/ (y = "f"%string /\ b = false))
     | Raise e => e = EOFError /\ stdin w' = []
     end) /\
  (exists evs, stdout w' = stdout w ++ AskQuestion ri :: evs /\
     Forall (fun e => e = AskQuestion ri \/ e = AskAnswer ri) evs).
Proof. apply review_question_spec. lia. Qed.

Lemma review_question_quit (ri : ReviewItem.t) (pre post : list string) :
  Forall ignored_at_question pre ->
  forall (n : nat) (w : World),
    (length pre < n)%nat -> stdin w = pre ++ "q"%string :: post ->
    review_question n ri w =
      (Ok None,
       mkWorld (db w) post (ticks w)
         (stdout w ++ replicate (S (length pre)) (AskQuestion ri))).
Proof.
  induction 1 as [|x pre [Hq Ha] Hpre IH]; intros n w Hn Hin;
    (destruct n as [|n]; [simpl in Hn; lia|]);
    simpl; unfold _prompt; rewrite !M_bind_eq; simpl; unfold input; simpl;
    rewrite Hin; simpl.
  - done.
  - destruct (String.eqb_spec x "q") as [->|_]; [done|].
    destruct (String.eqb_spec x "a") as [->|_]; [done|]. simpl.
    rewrite IH; [|simpl in *; lia|done]. simpl.
    by rewrite <- app_assoc.
Qed.

Lemma review_quit (ri : ReviewItem.t) (pre post : list string) (w : World) :
  Forall ignored_at_question pre ->
  stdin w = pre ++ "q"%string :: post ->
  review ri w =
    (Ok None,
     mkWorld (db w) post (ticks w)
       (stdout w ++ replicate (S (length pre)) (AskQuestion ri))).
Proof.
  intros Hpre Hin. unfold review. apply review_question_quit; [done| |done].
  rewrite Hin, length_app. simpl. lia.
Qed.

(** ** The session loop *)

Section SessionFacts.
Context `{PyFloat}.
Variable clock : nat -> float.

Lemma due_spec (items : list Item) (w : World) :
  due clock items w =
    match items with
    | [] => (Ok false, w)
    | first :: _ =>
        (Ok (int_le_float (review_time first) (clock (ticks w))),
         mkWorld (db w) (stdin w) (S (ticks w)) (stdout w))
    end.
Proof. by destruct items. Qed.

(** What one turn of the loop body does, in each of its outcomes. *)
Lemma start_review_body_spec (items : list Item) (intervals : list float)
    (w : World) r w' :
  start_review_body clock items intervals w = (r, w') ->
  match r with
  | Ok (false, items') =>
      exists item ri,
        heappop items = Ok (item, items') /\
        make_review_item item (db w) = Ok ri /\
        review ri w = (Ok None, w')
  | Ok (true, items') =>
      exists item rest ri (success : bool) w1 item',
        heappop items = Ok (item, rest) /\
        make_review_item item (db w) = Ok ri /\
        review ri w = (Ok (Some success), w1) /\
        (if success then add_success (clock (ticks w1)) item intervals
         else add_failure (clock (ticks w1)) item intervals) = Ok item' /\
        items' = heappush rest item' /\
        w' = mkWorld (update_item item' (db w1) success) (stdin w1)
               (S (ticks w1)) (stdout w1 ++ [BlankLine])
  | Raise e =>
      db w' = db w /\
      (e = EOFError -> stdin w' = [])
  end.
Proof.
  unfold start_review_body. rewrite M_bind_eq. unfold lift at 1.
  destruct (heappop items) as [[item rest]|e] eqn:Hpop.
  2:{ intros [= <- <-]. split; [done|]. intros ->.
      unfold heappop in Hpop. destruct (last items); [|done].
      by destruct (removelast items). }
  rewrite M_bind_eq. rewrite M_bind_eq. unfold get_db at 1. unfold lift at 1.
  destruct (make_review_item item (db w)) as [ri|e] eqn:Hri.
  2:{ intros [= <- <-]. split; [done|]. intros ->.
      unfold make_review_item in Hri. by destruct (find _ _). }
  rewrite M_bind_eq.
  destruct (review ri w) as [[[[|]|]|e] w1] eqn:Hrev.
  - (* recalled *)
    destruct (review_spec _ _ _ _ Hrev) as ([Hdb Htk] & _).
    rewrite M_bind_eq. unfold time at 1. rewrite M_bind_eq. unfold lift at 1.
    destruct (add_success _ item intervals) as [item'|e] eqn:Hadd.
    + intros [= <- <-]. exists item, rest, ri, true, w1, item'. done.
    + intros [= <- <-]. simpl. split; [done|]. intros ->.
      unfold add_success, _update_items in Hadd.
      destruct (getitem intervals _) eqn:Hg; [done|].
      simpl in Hadd. injection Hadd as ->.
      unfold getitem in Hg. repeat case_match; done.
  - (* forgot *)
    destruct (review_spec _ _ _ _ Hrev) as ([Hdb Htk] & _).
    rewrite M_bind_eq. unfold time at 1. rewrite M_bind_eq. unfold lift at 1.
    destruct (add_failure _ item intervals) as [item'|e] eqn:Hadd.
    + intros [= <- <-]. exists item, rest, ri, false, w1, item'. done.
    + intros [= <- <-]. simpl. split; [done|]. intros ->.
      unfold add_failure, _update_items in Hadd.
      destruct (getitem intervals _) eqn:Hg; [done|].
      simpl in Hadd. injection Hadd as ->.
      unfold getitem in Hg. repeat case_match; done.
  - (* quit *)
    intros [= <- <-]. by exists item, ri.
  - (* end of input *)
    destruct (review_spec _ _ _ _ Hrev) as ([Hdb Htk] & (used & _ & _ & Hnil) & _).
    intros [= <- <-]. done.
Qed.

Lemma due_never_raises (items : list Item) (w : World) :
  exists b w1, due clock items w = (Ok b, w1) /\
    db w1 = db w /\ stdin w1 = stdin w /\ stdout w1 = stdout w /\
    (ticks w <= ticks w1)%nat.
Proof.
  rewrite due_spec. destruct items; eexists _, _; (split; [done|]); simpl;
    repeat split; lia.
Qed.

(** An induction principle that follows the loop of [start_review]. *)
Lemma start_review_loop_ind
    (intervals : list float)
    (P : list Item -> World -> result (list Item) -> World -> Prop) :
  (forall items w w1,
      due clock items w = (Ok false, w1) -> P items w (Ok items) w1) ->
  (forall items w w1 e w2,
      due clock items w = (Ok true, w1) ->
      start_review_body clock items intervals w1 = (Raise e, w2) ->
      P items w (Raise e) w2) ->
  (forall items w w1 items' w2,
      due clock items w = (Ok true, w1) ->
      start_review_body clock items intervals w1 = (Ok (false, items'), w2) ->
      P items w (Ok items') w2) ->
  (forall items w w1 items' w2 r w',
      due clock items w = (Ok true, w1) ->
      start_review_body clock items intervals w1 = (Ok (true, items'), w2) ->
      P items' w2 r w' -> P items w r w') ->
  forall n items w r w',
    start_review_loop clock n items intervals w = Some (r, w') ->
    P items w r w'.
Proof.
  intros Hexit Hraise Hquit Hgo.
  induction n as [|n IH]; intros items w r w' Hrun; [done|].
  simpl in Hrun.
  destruct (due_never_raises items w) as (b & w1 & Hdue & _).
  rewrite Hdue in Hrun. destruct b.
  - destruct (start_review_body clock items intervals w1)
      as [[[[|] items']|e] w2] eqn:Hbody.
    + eapply Hgo; eauto.
    + injection Hrun as <- <-. eapply Hquit; eauto.
    + injection Hrun as <- <-. eapply Hraise; eauto.
  - injection Hrun as <- <-. by apply Hexit.
Qed.

(** The loop ends before its counter does: every turn that goes on has
    read at least one line. *)
Lemma start_review_loop_total (intervals : list float) :
  forall n items w,
    (length (stdin w) < n)%nat ->
    is_Some (start_review_loop clock n items intervals w).
Proof.
  induction n as [|n IH]; intros items w Hn; [lia|].
  simpl.
  destruct (due_never_raises items w) as (b & w1 & Hdue & _ & Hin & _).
  rewrite Hdue. destruct b; [|done].
  destruct (start_review_body clock items intervals w1)
    as [[[[|] items']|e] w2] eqn:Hbody; [|done..].
  apply IH.
  apply start_review_body_spec in Hbody
    as (item & rest & ri & b & w1' & item' & _ & _ & Hrev & _ & _ & ->).
  apply review_spec in Hrev as (_ & (used & Hused & junk & y & -> & _) & _).
  simpl. rewrite <- Hin, Hused, !length_app in Hn. simpl in Hn. lia.
Qed.

Lemma start_review_total (items : list Item) (intervals : list float) (w : World) :
  exists r w', start_review clock items intervals w = Some (r, w').
Proof.
  destruct (start_review_loop_total intervals (S (length (stdin w))) items w)
    as [[r w'] Hrun]; [lia|].
  by exists r, w'.
Qed.
End SessionFacts.

(** ** The heap *)

(** [name_index e p] names the position [e]; [heap_lia] then decides the
    goal by cases on which positions coincide. *)
Ltac name_index e p :=
  let H := fresh in
  remember e as p eqn:H in *;
  assert (p <= e /\ e <= p)%nat by (rewrite H; lia);
  clear H.
Ltac heap_lia :=
  unfold key_at in *;
  repeat match goal with
         | H : @eq nat ?x ?y |- _ =>
             tryif (is_var x; is_var y) then fail
             else (assert (x <= y /\ y <= x)%nat by lia; clear H)
         end;
  repeat case_decide; subst;
  repeat match goal with
         | H : (?a <= ?b /\ ?b <= ?a)%nat |- _ =>
             is_var a; is_var b;
             assert (a = b) by lia; clear H; subst
         | H1 : (?a <= ?e /\ ?e <= ?a)%nat, H2 : (?b <= ?e /\ ?e <= ?b)%nat |- _ =>
             is_var a; is_var b;
             tryif constr_eq a b then fail
             else (assert (a = b) by lia; clear H2; subst b)
         end;
  lia.

Section HeapFacts.
Implicit Types (heap h : list Item) (pos i j s n : nat) (newitem x : Item).
Local Open Scope nat_scope.

Lemma Item_lt_spec (a b : Item) :
  Item_lt a b = true <-> (review_time a < review_time b)%Z.
Proof. apply Z.ltb_lt. Qed.

Lemma Item_lt_false (a b : Item) :
  Item_lt a b = false <-> (review_time b <= review_time a)%Z.
Proof. apply Z.ltb_ge. Qed.

Lemma key_at_insert heap i j x :
  i < length heap ->
  key_at (<[i:=x]> heap) j = if decide (i = j) then review_time x else key_at heap j.
Proof.
  intros Hi. unfold key_at. rewrite list_lookup_total_insert.
  repeat case_decide; done || lia.
Qed.

Lemma is_heap_from_0 h : is_heap h <-> heap_from 0 h.
Proof.
  unfold is_heap, heap_from. split; intros Hh i Hi; [intros _|]; apply Hh; lia.
Qed.

Lemma below_ge s pos : below s pos -> s <= pos.
Proof. induction 1; lia. Qed.

Lemma below_parent s pos :
  below s pos -> s < pos -> below s ((pos - 1) / 2) /\ s <= (pos - 1) / 2.
Proof.
  intros Hb Hlt. destruct Hb as [|p c Hp Hc Hpc]; [lia|].
  subst p. split; [done|]. by apply below_ge.
Qed.

Lemma below_0 pos : below 0 pos.
Proof.
  induction pos as [pos IH] using lt_wf_ind.
  destruct pos as [|pos]; [constructor|].
  apply (below_child 0 ((S pos - 1) / 2)); [apply IH; lia|lia|done].
Qed.

(** Moving the pending item from [pos] to [q] swaps two positions of
    the list in which the pending item is written at its place. *)
Lemma pending_move_perm heap pos q newitem :
  pos < length heap -> q < length heap -> pos <> q ->
  <[q:=newitem]> (<[pos:=heap !!! q]> heap) ≡ₚ <[pos:=newitem]> heap.
Proof.
  intros Hpos Hq Hne.
  rewrite <- (list_insert_insert_eq heap pos (heap !!! q) newitem).
  apply Permutation_insert_swap.
  - by apply list_lookup_insert_eq.
  - rewrite list_lookup_insert_ne by done. by apply list_lookup_lookup_total_lt.
Qed.

Lemma _siftdown_loop_S n heap s pos newitem :
  _siftdown_loop (S n) heap s pos newitem =
    if decide (s < pos) then
      if Item_lt newitem (heap !!! ((pos - 1) / 2))
      then _siftdown_loop n (<[pos:=heap !!! ((pos - 1) / 2)]> heap) s
             ((pos - 1) / 2) newitem
      else <[pos:=newitem]> heap
    else <[pos:=newitem]> heap.
Proof. reflexivity. Qed.

(** [_siftdown]: when only the pending item may be smaller than its
    parent, the loop restores the order from [s] on. *)
Lemma _siftdown_loop_spec s newitem : forall n heap pos,
  pos <= n -> pos < length heap -> below s pos ->
  (forall i, 0 < i < length heap -> i <> pos -> s <= (i - 1) / 2 ->
     (key_at (<[pos:=newitem]> heap) ((i - 1) / 2)
      <= key_at (<[pos:=newitem]> heap) i)%Z) ->
  (s < pos -> forall c, 0 < c < length heap -> (c - 1) / 2 = pos ->
     (key_at (<[pos:=newitem]> heap) ((pos - 1) / 2)
      <= key_at (<[pos:=newitem]> heap) c)%Z) ->
  heap_from s (_siftdown_loop n heap s pos newitem) /\
  _siftdown_loop n heap s pos newitem ≡ₚ <[pos:=newitem]> heap.
Proof.
  induction n as [|n IH]; intros heap pos Hn Hpos Hb D1 D2.
  - simpl. split; [|done]. intros i Hi Hs. rewrite length_insert in Hi.
    apply D1; [done|lia|done].
  - rewrite _siftdown_loop_S. pose proof (below_ge _ _ Hb) as Hge.
    case_decide as Hlt.
    + destruct (below_parent _ _ Hb Hlt) as [Hbq Hsq].
      name_index ((pos - 1) / 2) q.
      destruct (Item_lt newitem (heap !!! q)) eqn:Hcmp.
      * apply Item_lt_spec in Hcmp.
        destruct (IH (<[pos:=heap !!! q]> heap) q) as [Hheap Hperm].
        -- lia.
        -- rewrite length_insert. lia.
        -- done.
        -- rewrite length_insert. intros i Hi Hiq Hsi.
           pose proof (D1 i Hi) as D1i.
           pose proof (D2 Hlt i Hi) as D2i.
           name_index ((i - 1) / 2) p.
           rewrite !key_at_insert in D1i, D2i by lia.
           rewrite !key_at_insert by (rewrite ?length_insert; lia).
           heap_lia.
        -- rewrite length_insert. intros Hsq' c Hc Hcq.
           destruct (below_parent _ _ Hbq Hsq') as [_ Hsp].
           pose proof (D1 c Hc) as D1c.
           pose proof (D1 q) as D1q.
           name_index ((q - 1) / 2) p.
           name_index ((c - 1) / 2) p'.
           rewrite !key_at_insert in D1c, D1q by lia.
           rewrite !key_at_insert by (rewrite ?length_insert; lia).
           heap_lia.
        -- split; [done|]. rewrite Hperm. apply pending_move_perm; lia.
      * apply Item_lt_false in Hcmp. split; [|done].
        intros i Hi Hs. rewrite length_insert in Hi.
        destruct (decide (i = pos)) as [->|Hne]; [|by apply D1].
        name_index ((pos - 1) / 2) p.
        rewrite !key_at_insert by lia.
        heap_lia.
    + split; [|done]. intros i Hi Hs. rewrite length_insert in Hi.
      apply D1; [done|lia|done].
Qed.

Lemma _siftup_loop_S n heap endpos pos childpos :
  _siftup_loop (S n) heap endpos pos childpos =
    if decide (childpos < endpos) then
      let c :=
        if bool_decide (childpos + 1 < endpos)
           && negb (Item_lt (heap !!! childpos) (heap !!! (childpos + 1)))
        then childpos + 1 else childpos in
      _siftup_loop n (<[pos:=heap !!! c]> heap) endpos c (2 * c + 1)
    else (heap, pos).
Proof. reflexivity. Qed.

(** The smaller child, as the loop of [_siftup] picks it. *)
Lemma smaller_child heap pos c :
  2 * pos + 1 < length heap ->
  c = (if bool_decide (2 * pos + 1 + 1 < length heap)
          && negb (Item_lt (heap !!! (2 * pos + 1)) (heap !!! (2 * pos + 1 + 1)))
       then 2 * pos + 1 + 1 else 2 * pos + 1) ->
  0 < c < length heap /\ (c - 1) / 2 = pos /\
  forall i, 0 < i < length heap -> (i - 1) / 2 = pos ->
    (key_at heap c <= key_at heap i)%Z.
Proof.
  intros Hlen ->. case_bool_decide as Hr; cbn [andb].
  - destruct (Item_lt _ _) eqn:Hcmp; cbn [negb].
    + apply Item_lt_spec in Hcmp. split; [lia|]. split; [lia|].
      intros i Hi Hp.
      assert (i = 2 * pos + 1 \/ i = 2 * pos + 1 + 1) as [->| ->] by lia;
        unfold key_at; lia.
    + apply Item_lt_false in Hcmp. split; [lia|]. split; [lia|].
      intros i Hi Hp.
      assert (i = 2 * pos + 1 \/ i = 2 * pos + 1 + 1) as [->| ->] by lia;
        unfold key_at; lia.
  - split; [lia|]. split; [lia|].
    intros i Hi Hp. assert (i = 2 * pos + 1) as -> by lia. lia.
Qed.

(** [_siftup], first loop: the pending item goes down to a leaf, the
    smaller child moving up at each step; the order is kept everywhere
    but around the pending item. *)
Lemma _siftup_loop_spec s newitem : forall n heap endpos pos heap' pos',
  endpos = length heap ->
  endpos <= n + 2 * pos + 1 -> pos < endpos -> below s pos ->
  (forall i, 0 < i < endpos -> i <> pos -> (i - 1) / 2 <> pos ->
     s <= (i - 1) / 2 ->
     (key_at (<[pos:=newitem]> heap) ((i - 1) / 2)
      <= key_at (<[pos:=newitem]> heap) i)%Z) ->
  (s < pos -> forall c, 0 < c < endpos -> (c - 1) / 2 = pos ->
     (key_at (<[pos:=newitem]> heap) ((pos - 1) / 2)
      <= key_at (<[pos:=newitem]> heap) c)%Z) ->
  _siftup_loop n heap endpos pos (2 * pos + 1) = (heap', pos') ->
  length heap' = endpos /\ pos' < endpos /\ below s pos' /\
  <[pos':=newitem]> heap' ≡ₚ <[pos:=newitem]> heap /\
  (forall i, 0 < i < endpos -> i <> pos' -> s <= (i - 1) / 2 ->
     (key_at (<[pos':=newitem]> heap') ((i - 1) / 2)
      <= key_at (<[pos':=newitem]> heap') i)%Z) /\
  (s < pos' -> forall c, 0 < c < endpos -> (c - 1) / 2 = pos' ->
     (key_at (<[pos':=newitem]> heap') ((pos' - 1) / 2)
      <= key_at (<[pos':=newitem]> heap') c)%Z).
Proof.
  induction n as [|n IH]; intros heap endpos pos heap' pos' Hend Hn Hpos Hb A1 A2 Hrun.
  - injection Hrun as <- <-.
    repeat split; try done; try (intros Hlt c Hc Hcp; lia).
    intros i Hi Hne Hs. apply A1; [done..|lia|done].
  - rewrite _siftup_loop_S in Hrun. case_decide as Hchild.
    2:{ injection Hrun as <- <-.
        repeat split; try done; try (intros Hlt c Hc Hcp; lia).
        intros i Hi Hne Hs. apply A1; [done..|lia|done]. }
    cbv zeta in Hrun.
    remember (if bool_decide (2 * pos + 1 + 1 < endpos)
                 && negb (Item_lt (heap !!! (2 * pos + 1)) (heap !!! (2 * pos + 1 + 1)))
              then 2 * pos + 1 + 1 else 2 * pos + 1) as c eqn:Hc.
    subst endpos.
    destruct (smaller_child heap pos c Hchild Hc) as (Hclt & Hcp & Hmin).
    clear Hc.
    pose proof (below_ge _ _ Hb) as Hge.
    assert (Hbc : below s c) by (eapply below_child; [exact Hb|lia|done]).
    apply IH in Hrun.
    + destruct Hrun as (Hlen & Hpos' & Hb' & Hperm & D1 & D2).
      repeat split; try done.
      rewrite Hperm. apply pending_move_perm; lia.
    + by rewrite length_insert.
    + lia.
    + lia.
    + done.
    + intros i Hi Hic Hpc Hs.
      pose proof (A1 i Hi) as A1i.
      pose proof (A2) as A2c. 
      pose proof (Hmin i Hi) as Hmi.
      name_index ((i - 1) / 2) p.
      destruct (decide (s < pos)) as [Hlt|Hnlt].
      * specialize (A2c Hlt c Hclt Hcp).
        name_index ((pos - 1) / 2) q.
        rewrite !key_at_insert in A1i, A2c by lia.
        rewrite !key_at_insert by (rewrite ?length_insert; lia).
        heap_lia.
      * clear A2c.
        rewrite !key_at_insert in A1i by lia.
        rewrite !key_at_insert by (rewrite ?length_insert; lia).
        heap_lia.
    + intros Hlt d Hd Hdc.
      pose proof (A1 d Hd) as A1d.
      name_index ((d - 1) / 2) p.
      name_index ((c - 1) / 2) q.
      rewrite !key_at_insert in A1d by lia.
      rewrite !key_at_insert by (rewrite ?length_insert; lia).
      heap_lia.
Qed.
End HeapFacts.

Section HeapOps.
Implicit Types (heap h : list Item) (pos i j s n : nat) (newitem : Item).
Local Open Scope nat_scope.

Lemma insert_lookup_total_id heap pos :
  pos < length heap -> <[pos:=heap !!! pos]> heap = heap.
Proof.
  intros Hpos. apply list_insert_id. by apply list_lookup_lookup_total_lt.
Qed.

Lemma _siftdown_spec heap s pos :
  pos < length heap -> below s pos ->
  (forall i, 0 < i < length heap -> i <> pos -> s <= (i - 1) / 2 ->
     (key_at heap ((i - 1) / 2) <= key_at heap i)%Z) ->
  (s < pos -> forall c, 0 < c < length heap -> (c - 1) / 2 = pos ->
     (key_at heap ((pos - 1) / 2) <= key_at heap c)%Z) ->
  heap_from s (_siftdown heap s pos) /\ _siftdown heap s pos ≡ₚ heap.
Proof.
  intros Hpos Hb D1 D2. unfold _siftdown.
  destruct (_siftdown_loop_spec s (heap !!! pos) pos heap pos)
    as [Hheap Hperm]; [lia|done|done|..].
  - by rewrite insert_lookup_total_id.
  - by rewrite insert_lookup_total_id.
  - by rewrite insert_lookup_total_id in Hperm.
Qed.

Lemma _siftup_spec heap pos :
  pos < length heap -> heap_from (S pos) heap ->
  heap_from pos (_siftup heap pos) /\ _siftup heap pos ≡ₚ heap.
Proof.
  intros Hpos Hh. unfold _siftup.
  destruct (_siftup_loop (length heap) heap (length heap) pos (2 * pos + 1))
    as [heap' pos'] eqn:Hrun.
  apply (_siftup_loop_spec pos (heap !!! pos)) in Hrun
    as (Hlen & Hpos' & Hb' & Hperm & D1 & D2);
    [|done|lia|done|constructor| |].
  - destruct (_siftdown_spec (<[pos':=heap !!! pos]> heap') pos pos')
      as [Hheap Hperm'].
    + rewrite length_insert. lia.
    + done.
    + rewrite length_insert, Hlen. done.
    + rewrite length_insert, Hlen. done.
    + split; [done|]. rewrite Hperm', Hperm.
      by rewrite insert_lookup_total_id.
  - rewrite insert_lookup_total_id by done.
    intros i Hi Hne Hpar Hs. apply Hh; [done|lia].
  - lia.
Qed.

Lemma heapify_loop_spec : forall k (x : list Item),
  k <= length x / 2 -> heap_from k x ->
  is_heap (heapify_loop k x) /\ heapify_loop k x ≡ₚ x.
Proof.
  induction k as [|k IH]; intros x Hk Hh.
  - split; [by apply is_heap_from_0|done].
  - simpl. destruct (_siftup_spec x k) as [Hheap Hperm]; [lia|done|].
    destruct (IH (_siftup x k)) as [Hheap' Hperm'].
    + rewrite Hperm. lia.
    + done.
    + split; [done|]. by rewrite Hperm'.
Qed.

Lemma heapify_spec (x : list Item) : is_heap (heapify x) /\ heapify x ≡ₚ x.
Proof.
  apply heapify_loop_spec; [done|]. intros i Hi Hpar. lia.
Qed.

Lemma key_at_app_l h l i : i < length h -> key_at (h ++ l) i = key_at h i.
Proof. intros Hi. unfold key_at. by rewrite lookup_total_app_l. Qed.

Lemma heappush_spec h (item : Item) :
  is_heap h -> is_heap (heappush h item) /\ heappush h item ≡ₚ item :: h.
Proof.
  intros Hh. unfold heappush.
  destruct (_siftdown_spec (h ++ [item]) 0 (length (h ++ [item]) - 1))
    as [Hheap Hperm].
  - rewrite length_app; cbn [length]. lia.
  - apply below_0.
  - rewrite length_app; cbn [length]. intros i Hi Hne _.
    rewrite !key_at_app_l by lia. apply Hh. lia.
  - rewrite length_app; cbn [length]. intros _ c Hc Hpar. lia.
  - split; [by apply is_heap_from_0|].
    rewrite Hperm. by rewrite Permutation_app_comm.
Qed.

Lemma root_min h : is_heap h ->
  forall i, i < length h -> (key_at h 0 <= key_at h i)%Z.
Proof.
  intros Hh i. induction i as [i IH] using lt_wf_ind. intros Hi.
  destruct (decide (i = 0)) as [->|Hne]; [lia|].
  specialize (Hh i ltac:(lia)).
  specialize (IH ((i - 1) / 2) ltac:(lia) ltac:(lia)). lia.
Qed.

(** *** Permutations, whatever the order of the list *)

Lemma _siftdown_loop_perm s newitem : forall n heap pos,
  pos < length heap ->
  _siftdown_loop n heap s pos newitem ≡ₚ <[pos:=newitem]> heap.
Proof.
  induction n as [|n IH]; intros heap pos Hpos; [done|].
  rewrite _siftdown_loop_S. case_decide as Hlt; [|done].
  destruct (Item_lt _ _); [|done].
  rewrite IH by (rewrite length_insert; lia).
  apply pending_move_perm; lia.
Qed.

Lemma _siftdown_perm heap s pos :
  pos < length heap -> _siftdown heap s pos ≡ₚ heap.
Proof.
  intros Hpos. unfold _siftdown. rewrite _siftdown_loop_perm by done.
  by rewrite insert_lookup_total_id.
Qed.

Lemma _siftup_loop_perm newitem : forall n heap endpos pos childpos heap' pos',
  endpos = length heap -> pos < endpos -> pos < childpos ->
  _siftup_loop n heap endpos pos childpos = (heap', pos') ->
  length heap' = endpos /\ pos' < endpos /\
  <[pos':=newitem]> heap' ≡ₚ <[pos:=newitem]> heap.
Proof.
  induction n as [|n IH]; intros heap endpos pos childpos heap' pos' Hend Hpos Hc Hrun.
  - by injection Hrun as <- <-.
  - rewrite _siftup_loop_S in Hrun. case_decide as Hchild.
    2:{ by injection Hrun as <- <-. }
    cbv zeta in Hrun.
    remember (if bool_decide (childpos + 1 < endpos)
                 && negb (Item_lt (heap !!! childpos) (heap !!! (childpos + 1)))
              then childpos + 1 else childpos) as c eqn:Hceq.
    assert (Hcb : childpos <= c < endpos).
    { subst c. case_bool_decide; cbn [andb]; [destruct (negb _)|]; lia. }
    clear Hceq. subst endpos.
    apply IH in Hrun as (Hlen & Hpos' & Hperm);
      [|by rewrite length_insert|lia|lia].
    split; [done|]. split; [done|].
    rewrite Hperm. apply pending_move_perm; lia.
Qed.

Lemma _siftup_perm heap pos :
  pos < length heap -> _siftup heap pos ≡ₚ heap.
Proof.
  intros Hpos. unfold _siftup.
  destruct (_siftup_loop (length heap) heap (length heap) pos (2 * pos + 1))
    as [heap' pos'] eqn:Hrun.
  apply (_siftup_loop_perm (heap !!! pos)) in Hrun as (Hlen & Hpos' & Hperm);
    [|done|done|lia].
  rewrite _siftdown_perm by (rewrite length_insert; lia).
  by rewrite Hperm, insert_lookup_total_id.
Qed.

Lemma heappush_perm h (item : Item) : heappush h item ≡ₚ item :: h.
Proof.
  unfold heappush. rewrite _siftdown_perm.
  - by rewrite Permutation_app_comm.
  - rewrite length_app; cbn [length]. lia.
Qed.

Lemma heappop_nil : heappop [] = Raise IndexError.
Proof. reflexivity. Qed.

(** [heappop] returns the first item of a non-empty list, whatever the
    order of the list, and keeps the others. *)
Lemma heappop_cons (first : Item) (l : list Item) :
  exists h', heappop (first :: l) = Ok (first, h') /\ h' ≡ₚ l.
Proof.
  unfold heappop.
  destruct (last (first :: l)) as [lastelt|] eqn:Hlast.
  2:{ by apply last_None in Hlast. }
  apply last_Some in Hlast as [l' Hl']. rewrite Hl', removelast_last.
  destruct l' as [|y l'].
  - simplify_eq/=. by exists [].
  - simplify_eq/=. eexists. split; [done|].
    rewrite _siftup_perm by (cbn [length]; lia).
    by rewrite Permutation_app_comm.
Qed.

Lemma heappop_inv h x h' :
  heappop h = Ok (x, h') -> exists l, h = x :: l /\ h' ≡ₚ l.
Proof.
  destruct h as [|first l]; [done|].
  destruct (heappop_cons first l) as (h'' & Hpop & Hperm).
  rewrite Hpop. intros [= <- <-]. by exists l.
Qed.

Lemma heappop_is_heap h x h' :
  is_heap h -> heappop h = Ok (x, h') ->
  is_heap h' /\ forall y, y ∈ h' -> (review_time x <= review_time y)%Z.
Proof.
  intros Hh Hpop.
  destruct (heappop_inv _ _ _ Hpop) as (l & -> & Hperm).
  split.
  - revert Hpop. unfold heappop.
    destruct (last (x :: l)) as [lastelt|] eqn:Hlast; [|done].
    apply last_Some in Hlast as [l' Hl']. rewrite Hl', removelast_last.
    destruct l' as [|y l'].
    + intros [= <- <-]. intros i Hi. simpl in Hi. lia.
    + simplify_eq/=. intros [= <-].
      apply is_heap_from_0, _siftup_spec; [cbn [length]; lia|].
      intros i Hi Hpar. cbn [length] in Hi.
      specialize (Hh i). rewrite length_cons, length_app in Hh. cbn [length] in Hh.
      specialize (Hh ltac:(lia)).
      unfold key_at in *.
      rewrite !(lookup_total_cons_ne_0 _ lastelt) by lia.
      rewrite !(lookup_total_cons_ne_0 _ y) in Hh by lia.
      rewrite !lookup_total_app_l in Hh by lia. done.
  - intros y Hy. rewrite Hperm in Hy.
    apply list_elem_of_lookup in Hy as [i Hi].
    pose proof (root_min _ Hh (S i)) as Hmin.
    pose proof (lookup_lt_Some _ _ _ Hi) as Hlt.
    unfold key_at in Hmin. simpl in Hmin.
    rewrite (list_lookup_total_correct _ _ _ Hi) in Hmin.
    apply Hmin. lia.
Qed.


End HeapOps.



(** ** The session, turn by turn *)

Section SessionClaims.
Context `{PyFloat}.
Variable clock : nat -> float.

(** What one turn of the loop body reads and prints, in any outcome:
    the prompts are about the first item of the list. *)
Lemma start_review_body_trace (items : list Item) (intervals : list float)
    (w : World) r w' :
  start_review_body clock items intervals w = (r, w') ->
  (ticks w <= ticks w')%nat /\
  (exists used, stdin w = used ++ stdin w') /\
  (exists evs, stdout w' = stdout w ++ evs /\
     forall ri, AskQuestion ri ∈ evs ->
       exists l, items = ReviewItem.item ri :: l).
Proof.
  unfold start_review_body. rewrite M_bind_eq. unfold lift at 1.
  destruct (heappop items) as [[item rest]|e] eqn:Hpop.
  2:{ intros [= <- <-]. split; [lia|]. split; [by exists []|].
      exists []. split; [by rewrite app_nil_r|]. intros ri Hin. by apply elem_of_nil in Hin. }
  destruct (heappop_inv _ _ _ Hpop) as (l & -> & _).
  rewrite M_bind_eq. rewrite M_bind_eq. unfold get_db at 1. unfold lift at 1.
  destruct (make_review_item item (db w)) as [ri|e] eqn:Hri.
  2:{ intros [= <- <-]. split; [lia|]. split; [by exists []|].
      exists []. split; [by rewrite app_nil_r|]. intros ri Hin. by apply elem_of_nil in Hin. }
  assert (Hitem : ReviewItem.item ri = item).
  { unfold make_review_item in Hri. destruct (find _ _); [|done].
    by injection Hri as <-. }
  rewrite M_bind_eq.
  destruct (review ri w) as [rr w1] eqn:Hrev.
  destruct (review_spec _ _ _ _ Hrev)
    as ([Hdb Htk] & (used & Hused & _) & (evs & Hevs & Hall)).
  assert (Hask : forall ri', AskQuestion ri' ∈ AskQuestion ri :: evs ->
            exists l', item :: l = ReviewItem.item ri' :: l').
  { intros ri' Hin. exists l. f_equal.
    apply elem_of_cons in Hin as [Heq|Hin].
    - by injection Heq as ->.
    - rewrite Forall_forall in Hall. destruct (Hall _ Hin) as [Heq|Heq]; [|done].
      by injection Heq as ->. }
  assert (Hask' : forall ri', AskQuestion ri' ∈ (AskQuestion ri :: evs) ++ [BlankLine] ->
            exists l', item :: l = ReviewItem.item ri' :: l').
  { intros ri' Hin. apply elem_of_app in Hin as [Hin|Hin]; [by apply Hask|].
    apply list_elem_of_singleton in Hin. done. }
  destruct rr as [[[|]|]|e].
  - rewrite M_bind_eq. unfold time at 1. rewrite M_bind_eq. unfold lift at 1.
    destruct (add_success _ item intervals) as [item'|e] eqn:Hadd.
    + intros [= <- <-]. simpl. split; [lia|]. split; [by exists used|].
      exists ((AskQuestion ri :: evs) ++ [BlankLine]).
      split; [by rewrite Hevs, <- app_assoc|done].
    + intros [= <- <-]. simpl. split; [lia|]. split; [by exists used|].
      by exists (AskQuestion ri :: evs).
  - rewrite M_bind_eq. unfold time at 1. rewrite M_bind_eq. unfold lift at 1.
    destruct (add_failure _ item intervals) as [item'|e] eqn:Hadd.
    + intros [= <- <-]. simpl. split; [lia|]. split; [by exists used|].
      exists ((AskQuestion ri :: evs) ++ [BlankLine]).
      split; [by rewrite Hevs, <- app_assoc|done].
    + intros [= <- <-]. simpl. split; [lia|]. split; [by exists used|].
      by exists (AskQuestion ri :: evs).
  - intros [= <- <-]. split; [lia|]. split; [by exists used|].
    by exists (AskQuestion ri :: evs).
  - intros [= <- <-]. split; [lia|]. split; [by exists used|].
    by exists (AskQuestion ri :: evs).
Qed.

Lemma due_true_inv (items : list Item) (w w1 : World) :
  due clock items w = (Ok true, w1) ->
  exists first l, items = first :: l /\
    int_le_float (review_time first) (clock (ticks w)) = true /\
    w1 = mkWorld (db w) (stdin w) (S (ticks w)) (stdout w).
Proof.
  rewrite due_spec. destruct items as [|first l]; [done|].
  intros [= Hdue <-]. by exists first, l.
Qed.

Lemma due_false_inv (items : list Item) (w w1 : World) :
  due clock items w = (Ok false, w1) ->
  (items = [] /\ w1 = w) \/
  (exists first l, items = first :: l /\
     int_le_float (review_time first) (clock (ticks w)) = false /\
     w1 = mkWorld (db w) (stdin w) (S (ticks w)) (stdout w)).
Proof.
  rewrite due_spec. destruct items as [|first l].
  - intros [= <-]. by left.
  - intros [= Hdue <-]. right. by exists first, l.
Qed.

(** The loop presents an item only after finding it due, and returns
    only with an empty list, a first item that is not due, or a quit. *)
Lemma start_review_loop_guard (intervals : list float) n items w r w' :
  start_review_loop clock n items intervals w = Some (r, w') ->
  (ticks w <= ticks w')%nat /\
  (exists used, stdin w = used ++ stdin w') /\
  (exists evs, stdout w' = stdout w ++ evs /\
     forall ri, AskQuestion ri ∈ evs ->
       exists t, (ticks w <= t < ticks w')%nat /\
         int_le_float (review_time (ReviewItem.item ri)) (clock t) = true) /\
  (forall items', r = Ok items' ->
     items' = [] \/
     (exists first rest t, items' = first :: rest /\ ticks w' = S t /\
        int_le_float (review_time first) (clock t) = false) \/
     (exists junk, stdin w = junk ++ "q"%string :: stdin w')).
Proof.
  revert n items w r w'.
  apply (start_review_loop_ind clock intervals
    (fun items w r w' =>
       (ticks w <= ticks w')%nat /\
       (exists used, stdin w = used ++ stdin w') /\
       (exists evs, stdout w' = stdout w ++ evs /\
          forall ri, AskQuestion ri ∈ evs ->
            exists t, (ticks w <= t < ticks w')%nat /\
              int_le_float (review_time (ReviewItem.item ri)) (clock t) = true) /\
       (forall items', r = Ok items' ->
          items' = [] \/
          (exists first rest t, items' = first :: rest /\ ticks w' = S t /\
             int_le_float (review_time first) (clock t) = false) \/
          (exists junk, stdin w = junk ++ "q"%string :: stdin w')))).
  - (* the loop test fails *)
    intros items w w1 Hdue.
    apply due_false_inv in Hdue as [[-> ->]|(first & l & -> & Hnot & ->)]; simpl.
    + split; [lia|]. split; [by exists []|]. split.
      * exists []. split; [by rewrite app_nil_r|].
        intros ri Hin. by apply elem_of_nil in Hin.
      * intros items' [= <-]. by left.
    + split; [lia|]. split; [by exists []|]. split.
      * exists []. split; [by rewrite app_nil_r|].
        intros ri Hin. by apply elem_of_nil in Hin.
      * intros items' [= <-]. right. left. by exists first, l, (ticks w).
  - (* the body raises *)
    intros items w w1 e w2 Hdue Hbody.
    apply due_true_inv in Hdue as (first & l & -> & Hdue & ->).
    apply start_review_body_trace in Hbody
      as (Htk & (used & Hused) & (evs & Hevs & Hask)). simpl in *.
    split; [lia|]. split; [by exists used|]. split; [|done].
    exists evs. split; [done|]. intros ri Hin.
    destruct (Hask ri Hin) as [l' [= <- _]].
    exists (ticks w). split; [lia|done].
  - (* the user quits *)
    intros items w w1 items' w2 Hdue Hbody.
    apply due_true_inv in Hdue as (first & l & -> & Hdue & ->).
    pose proof (start_review_body_trace _ _ _ _ _ Hbody)
      as (Htk & (used & Hused) & (evs & Hevs & Hask)). simpl in *.
    split; [lia|]. split; [by exists used|]. split.
    + exists evs. split; [done|]. intros ri Hin.
      destruct (Hask ri Hin) as [l' [= <- _]].
      exists (ticks w). split; [lia|done].
    + intros ? [= <-]. right. right.
      apply start_review_body_spec in Hbody as (item & ri & _ & _ & Hrev).
      apply review_spec in Hrev as (_ & (used' & Hused' & junk & ->) & _).
      simpl in Hused'. exists junk. by rewrite Hused', <- app_assoc.
  - (* the loop goes on *)
    intros items w w1 items' w2 r w' Hdue Hbody
      (Htk' & (used' & Hused') & (evs' & Hevs' & Hask') & Hexit).
    apply due_true_inv in Hdue as (first & l & -> & Hdue & ->).
    pose proof (start_review_body_trace _ _ _ _ _ Hbody)
      as (Htk & (used & Hused) & (evs & Hevs & Hask)). simpl in *.
    split; [lia|]. split.
    { exists (used ++ used'). by rewrite Hused, Hused', app_assoc. }
    split.
    + exists (evs ++ evs'). split; [by rewrite Hevs', Hevs, app_assoc|].
      intros ri Hin. apply elem_of_app in Hin as [Hin|Hin].
      * destruct (Hask ri Hin) as [l' [= <- _]].
        exists (ticks w). split; [lia|done].
      * destruct (Hask' ri Hin) as (t & Ht & Hdue').
        exists t. split; [lia|done].
    + intros items'' Hr.
      destruct (Hexit items'' Hr) as [->|[Hnot|[junk Hq]]]; [by left| |].
      * right. by left.
      * right. right. exists (used ++ junk).
        by rewrite Hused, Hq, <- app_assoc.
Qed.

Lemma start_review_loop_nil (intervals : list float) n w :
  start_review_loop clock (S n) [] intervals w = Some (Ok [], w).
Proof. reflexivity. Qed.

Lemma start_review_loop_not_due (intervals : list float) n first l w :
  int_le_float (review_time first) (clock (ticks w)) = false ->
  start_review_loop clock (S n) (first :: l) intervals w =
    Some (Ok (first :: l), mkWorld (db w) (stdin w) (S (ticks w)) (stdout w)).
Proof. intros Hnot. cbn [start_review_loop]. rewrite due_spec. by rewrite Hnot. Qed.

(** A quit at the question prompt ends the loop at once: the popped item
    is not pushed back and the table is not written. *)
Lemma start_review_loop_quit (intervals : list float) n first l w ri pre post :
  int_le_float (review_time first) (clock (ticks w)) = true ->
  make_review_item first (db w) = Ok ri ->
  stdin w = pre ++ "q"%string :: post ->
  Forall ignored_at_question pre ->
  exists rest,
    heappop (first :: l) = Ok (first, rest) /\ rest ≡ₚ l /\
    start_review_loop clock (S n) (first :: l) intervals w =
      Some (Ok rest,
            mkWorld (db w) post (S (ticks w))
              (stdout w ++ replicate (S (length pre)) (AskQuestion ri))).
Proof.
  intros Hdue Hri Hin Hpre.
  destruct (heappop_cons first l) as (rest & Hpop & Hperm).
  exists rest. split; [done|]. split; [done|].
  cbn [start_review_loop]. rewrite due_spec, Hdue.
  unfold start_review_body. rewrite M_bind_eq. unfold lift at 1. rewrite Hpop.
  rewrite M_bind_eq. rewrite M_bind_eq. unfold get_db at 1. unfold lift at 1.
  cbn [db]. rewrite Hri. rewrite M_bind_eq.
  rewrite (review_quit ri pre post) by done. done.
Qed.

End SessionClaims.

(** ** The loop counters are never the reason a loop ends

    One more turn than the counter allows changes nothing. *)

Section Counters.
Local Open Scope nat_scope.

Lemma _siftdown_loop_counter s (newitem : Item) : forall n (heap : list Item) pos,
  pos <= n ->
  _siftdown_loop (S n) heap s pos newitem = _siftdown_loop n heap s pos newitem.
Proof.
  induction n as [|n IH]; intros heap pos Hn.
  - rewrite _siftdown_loop_S. case_decide; [lia|done].
  - rewrite (_siftdown_loop_S (S n)), (_siftdown_loop_S n heap s pos newitem).
    case_decide; [|done]. destruct (Item_lt _ _); [|done]. apply IH. lia.
Qed.

Lemma _siftup_loop_counter : forall n (heap : list Item) endpos pos childpos,
  endpos <= n + childpos ->
  _siftup_loop (S n) heap endpos pos childpos =
    _siftup_loop n heap endpos pos childpos.
Proof.
  induction n as [|n IH]; intros heap endpos pos childpos Hn.
  - rewrite _siftup_loop_S. case_decide; [lia|done].
  - rewrite (_siftup_loop_S (S n)), (_siftup_loop_S n heap endpos pos childpos).
    case_decide; [|done]. cbv zeta. apply IH.
    destruct (bool_decide _ && negb _); lia.
Qed.

Lemma review_answer_counter (ri : ReviewItem.t) : forall n (w : World),
  length (stdin w) < n ->
  review_answer (S n) ri w = review_answer n ri w.
Proof.
  induction n as [|n IH]; intros w Hn; [lia|].
  cbn [review_answer]. unfold _prompt. rewrite !M_bind_eq.
  cbn [print]. unfold input. cbn [stdin].
  destruct (stdin w) as [|y rest] eqn:Hin; [done|].
  destruct (String.eqb y "r"); [done|]. destruct (String.eqb y "f"); [done|].
  apply IH. simpl in *. lia.
Qed.

Lemma review_question_counter (ri : ReviewItem.t) : forall n (w : World),
  length (stdin w) < n ->
  review_question (S n) ri w = review_question n ri w.
Proof.
  induction n as [|n IH]; intros w Hn; [lia|].
  cbn [review_question]. unfold _prompt. rewrite !M_bind_eq.
  cbn [print]. unfold input. cbn [stdin].
  destruct (stdin w) as [|x rest] eqn:Hin; [done|].
  destruct (String.eqb x "q"); [done|].
  destruct (negb (String.eqb x "a")).
  - apply IH. simpl in *. lia.
  - apply review_answer_counter. simpl in *. lia.
Qed.

Lemma start_review_loop_counter `{PyFloat} (clock : nat -> float)
    (intervals : list float) : forall n (items : list Item) (w : World),
  length (stdin w) < n ->
  start_review_loop clock (S n) items intervals w =
    start_review_loop clock n items intervals w.
Proof.
  induction n as [|n IH]; intros items w Hn; [lia|].
  cbn [start_review_loop].
  destruct (due_never_raises clock items w) as (b & w1 & Hdue & _ & Hin & _).
  rewrite Hdue. destruct b; [|done].
  destruct (start_review_body clock items intervals w1)
    as [[[[|] items']|e] w2] eqn:Hbody; [|done..].
  apply IH.
  apply start_review_body_spec in Hbody
    as (item & rest & ri & b & w1' & item' & _ & _ & Hrev & _ & _ & ->).
  apply review_spec in Hrev as (_ & (used & Hused & junk & y & -> & _) & _).
  simpl. rewrite <- Hin, Hused, !length_app in Hn. simpl in Hn. lia.
Qed.
End Counters.

(** C8: [start_review] always returns; every item it presents was found
    due by the loop test at an earlier clock reading of the session; when
    it returns normally, the list is empty, or its first item was not due
    at the last clock reading, or the last line read was [q].  Conversely
    the loop ends at once on an empty list, on a first item that is not
    due, and on a quit. *)
Theorem session_loop_guard `{PyFloat} (clock : nat -> float)
    (items : list Item) (intervals : list float) (w : World) :
  (exists r w',
      start_review clock items intervals w = Some (r, w') /\
      (exists evs, stdout w' = stdout w ++ evs /\
         forall ri, AskQuestion ri ∈ evs ->
           exists t, (ticks w <= t < ticks w')%nat /\
             int_le_float (review_time (ReviewItem.item ri)) (clock t) = true) /\
      (forall items', r = Ok items' ->
         items' = [] \/
         (exists first rest t, items' = first :: rest /\ ticks w' = S t /\
            int_le_float (review_time first) (clock t) = false) \/
         (exists junk, stdin w = junk ++ "q"%string :: stdin w'))) /\
  start_review clock [] intervals w = Some (Ok [], w) /\
  (forall first l,
      int_le_float (review_time first) (clock (ticks w)) = false ->
      start_review clock (first :: l) intervals w =
        Some (Ok (first :: l),
              mkWorld (db w) (stdin w) (S (ticks w)) (stdout w))) /\
  (forall first l ri pre post,
      int_le_float (review_time first) (clock (ticks w)) = true ->
      make_review_item first (db w) = Ok ri ->
      stdin w = pre ++ "q"%string :: post ->
      Forall ignored_at_question pre ->
      exists rest w',
        start_review clock (first :: l) intervals w = Some (Ok rest, w')).
Proof.
  split; [|split; [|split]].
  - destruct (start_review_total clock items intervals w) as (r & w' & Hrun).
    exists r, w'. split; [done|].
    apply start_review_loop_guard in Hrun as (_ & _ & Hevs & Hexit). done.
  - apply start_review_loop_nil.
  - intros first l Hnot. by apply start_review_loop_not_due.
  - intros first l ri pre post Hdue Hri Hin Hpre.
    destruct (start_review_loop_quit clock intervals (length (stdin w))
                first l w ri pre post Hdue Hri Hin Hpre) as (rest & _ & _ & Hrun).
    by eexists _, _.
Qed.

(** C5 (as amended): when the user quits at the question prompt, at any
    turn of the loop, the loop stops at once, the popped item is not
    pushed back, and the table is left exactly as it was when the item
    was popped: no update is issued for the quit.  In particular a quit
    at the first presented card leaves the table as it was before the
    session. *)
Theorem quit_stops_session `{PyFloat} (clock : nat -> float)
    (intervals : list float) (n : nat) (first : Item) (l : list Item)
    (w : World) (ri : ReviewItem.t) (pre post : list string) :
  int_le_float (review_time first) (clock (ticks w)) = true ->
  make_review_item first (db w) = Ok ri ->
  stdin w = pre ++ "q"%string :: post ->
  Forall ignored_at_question pre ->
  exists rest w',
    heappop (first :: l) = Ok (first, rest) /\ rest ≡ₚ l /\
    start_review_loop clock (S n) (first :: l) intervals w = Some (Ok rest, w') /\
    start_review clock (first :: l) intervals w = Some (Ok rest, w') /\
    db w' = db w /\ stdin w' = post /\
    stdout w' = stdout w ++ replicate (S (length pre)) (AskQuestion ri).
Proof.
  intros Hdue Hri Hin Hpre.
  destruct (start_review_loop_quit clock intervals n first l w ri pre post
              Hdue Hri Hin Hpre) as (rest & Hpop & Hperm & Hrun).
  destruct (start_review_loop_quit clock intervals (length (stdin w))
              first l w ri pre post Hdue Hri Hin Hpre)
    as (rest' & Hpop' & _ & Hrun').
  rewrite Hpop in Hpop'. injection Hpop' as <-.
  by eexists _, _.
Qed.


(** ** Import *)

Section ImportFacts.
Implicit Types (db added : list DBRow.t) (batch : list (list string))
  (q a d deck : string).

Lemma question_taken db q :
  existsb (fun r => String.eqb (DBRow.question r) q) db = true <-> q ∈ questions db.
Proof.
  unfold questions. rewrite existsb_exists, list_elem_of_fmap. split.
  - intros (r & Hr & Heq). apply String.eqb_eq in Heq.
    exists r. split; [done|]. by apply list_elem_of_In.
  - intros (r & -> & Hr). exists r. split; [by apply list_elem_of_In|].
    apply String.eqb_refl.
Qed.
















End ImportFacts.




(** ** The session on example data *)

Lemma quit_stops_session_witness :
  let w := mkWorld [card1] ["x"; "q"; "r"]%string 0 [] in
  let ri := ReviewItem.mk (mkItem 1 0 0) 0 0 "q1" "a1" "" in
  @int_le_float Q_float (review_time (mkItem 1 0 0))
    (example_clock (ticks w)) = true /\
  make_review_item (mkItem 1 0 0) (db w) = Ok ri /\
  stdin w = ["x"]%string ++ "q"%string :: ["r"]%string /\
  Forall ignored_at_question ["x"]%string /\
  exists rest w',
    heappop [mkItem 1 0 0] = Ok (mkItem 1 0 0, rest) /\ rest ≡ₚ [] /\
    start_review_loop (H := Q_float) example_clock 1 [mkItem 1 0 0]
      example_intervals w = Some (Ok rest, w') /\
    start_review (H := Q_float) example_clock [mkItem 1 0 0]
      example_intervals w = Some (Ok rest, w') /\
    db w' = db w /\ stdin w' = ["r"]%string /\
    stdout w' = stdout w ++ replicate 2 (AskQuestion ri).
Proof.
  intros w ri.
  assert (Hpre : Forall ignored_at_question ["x"]%string).
  { constructor; [by split|constructor]. }
  split; [reflexivity|]. split; [reflexivity|]. split; [reflexivity|].
  split; [exact Hpre|].
  exact (quit_stops_session (H := Q_float) example_clock example_intervals 0
           (mkItem 1 0 0) [] w ri ["x"]%string ["r"]%string
           eq_refl eq_refl eq_refl Hpre).
Defined.

(** C5 as stated fails: the only card is forgotten, is due again at once
    (its interval is 0), is presented again, and the user quits at its
    question prompt.  The session ends there, but the stored card is not
    as it was before the session: the earlier review of the same session
    has been written. *)
Lemma quit_after_forgetting :
  let w := mkWorld [card1] ["a"; "f"; "q"]%string 0 [] in
  exists w',
    start_review (H := Q_float) example_clock (load_items (db w) [])
      example_intervals w = Some (Ok [], w') /\
    stdin w = ["a"; "f"]%string ++ "q"%string :: stdin w' /\
    last (stdout w') =
      Some (AskQuestion (ReviewItem.mk (mkItem 1 1001 0) 0 1 "q1" "a1" "x")) /\
    db w = [DBRow.mk 1 0 0 0 0 "q1" "a1" "" "default"] /\
    db w' = [DBRow.mk 1 0 1 1001 0 "q1" "a1" "x" "default"] /\
    db w' <> db w.
Proof.
  intros w. eexists. split; [vm_compute; reflexivity|].
  repeat split; discriminate.
Qed.

(** C6 fails on the code: with one due card and a quit at its question
    prompt, [start_review] leaves the list empty and [main] raises
    [IndexError] at [items[0]]. *)
Theorem main_raises_after_quit_on_last_item :
  let w := mkWorld [card1] ["q"%string] 0 [] in
  load_items (db w) [] = [mkItem 1 0 0] /\
  (exists w',
      start_review (H := Q_float) example_clock (load_items (db w) [])
        example_intervals w = Some (Ok [], w')) /\
  exists w',
    main_review (H := Q_float) example_clock [] example_intervals w =
      Some (Raise IndexError, w').
Proof.
  intros w. split; [reflexivity|].
  split; eexists; vm_compute; reflexivity.
Qed.

(** * Further properties of the code *)

(** ** Subscripts of the interval table *)


Lemma getitem_out_of_range {A} (l : list A) (i : Z) :
  i < - Z.of_nat (length l) \/ Z.of_nat (length l) <= i ->
  getitem l i = Raise IndexError.
Proof.
  intros Hi. unfold getitem.
  destruct (Z.ltb_spec i 0), (Z.leb_spec 0 (i + Z.of_nat (length l))),
    (Z.ltb_spec (i + Z.of_nat (length l)) (Z.of_nat (length l))),
    (Z.leb_spec 0 i), (Z.ltb_spec i (Z.of_nat (length l))); simpl; try done; lia.
Qed.



(** X2: with an empty interval table both transitions raise
    [IndexError], whatever the item and the time. *)
Theorem empty_table_raises `{PyFloat} (now : float) (item : Item) :
  add_success now item [] = Raise IndexError /\
  add_failure now item [] = Raise IndexError.
Proof.
  split.
  - unfold add_success, _update_items. by rewrite getitem_out_of_range by (simpl; lia).
  - unfold add_failure, _update_items. by rewrite getitem_out_of_range by (simpl; lia).
Qed.



(** ** The interval table: edge cases and growth *)

Section IntervalGrowth.
Local Open Scope R_scope.

(** X4: [compute_intervals] fails for [trials = 0] (division by zero)
    and for [hours <= -1] (logarithm outside its domain); for a negative
    [trials] the table is empty. *)
Theorem compute_intervals_edges (trials : Z) (hours : R) :
  compute_intervals 0 hours = None /\
  (hours + 1 <= 0 -> compute_intervals trials hours = None) /\
  ((trials < 0)%Z -> 0 < hours + 1 -> compute_intervals trials hours = Some []).
Proof.
  unfold compute_intervals. split; [|split].
  - destruct (Rle_dec (hours + 1) 0); [done|]. by destruct (Z.eq_dec 0%Z 0%Z).
  - intros Hh. by destruct (Rle_dec (hours + 1) 0).
  - intros Ht Hh. destruct (Rle_dec (hours + 1) 0); [lra|].
    destruct (Z.eq_dec trials 0%Z); [lia|].
    unfold range. by replace (Z.to_nat (trials + 1)) with 0%nat by lia.
Qed.

Lemma compute_intervals_edges_witness :
  compute_intervals 20 (-1) = None /\
  compute_intervals (-3) 5 = Some [].
Proof.
  split.
  - apply (proj1 (proj2 (compute_intervals_edges 20 (-1)))). lra.
  - apply (proj2 (proj2 (compute_intervals_edges (-3) 5))); [lia|lra].
Defined.



End IntervalGrowth.

(** ** The card table: loading, updating, reading *)

Lemma load_items_perm (d : DB) (decks : list string) :
  load_items d decks ≡ₚ map item_of_row (List.filter (deck_selected decks) d).
Proof. unfold load_items. apply heapify_spec. Qed.

Lemma deck_selected_spec (decks : list string) (r : DBRow.t) :
  deck_selected decks r = true <-> decks = [] \/ DBRow.deck r ∈ decks.
Proof.
  unfold deck_selected. destruct decks as [|d decks].
  - split; [by left|done].
  - rewrite existsb_exists. split.
    + intros (x & Hx & Heq). apply String.eqb_eq in Heq. right.
      rewrite Heq. by apply list_elem_of_In.
    + intros [?|Hin]; [done|]. exists (DBRow.deck r).
      split; [by apply list_elem_of_In|apply String.eqb_refl].
Qed.

(** X6: [load_items] returns, as a heap on [review_time], exactly the
    [(rowid, review_time, trial)] projections of the rows whose deck is
    one of [decks], each row once; without decks it returns the
    projections of all rows. *)
Theorem load_items_selects (d : DB) (decks : list string) :
  is_heap (load_items d decks) /\
  load_items d decks ≡ₚ map item_of_row (List.filter (deck_selected decks) d) /\
  (forall it, it ∈ load_items d decks <->
     exists r, r ∈ d /\ it = item_of_row r /\
       (decks = [] \/ DBRow.deck r ∈ decks)) /\
  load_items d [] ≡ₚ map item_of_row d.
Proof.
  split; [apply heapify_spec|]. split; [apply load_items_perm|]. split.
  - intros it. rewrite load_items_perm, list_elem_of_fmap. split.
    + intros (r & -> & Hr). apply list_elem_of_In, filter_In in Hr as [Hr Hsel].
      exists r. split; [by apply list_elem_of_In|]. split; [done|].
      by apply deck_selected_spec.
    + intros (r & Hr & -> & Hsel). exists r. split; [done|].
      apply list_elem_of_In, filter_In. split; [by apply list_elem_of_In|].
      by apply deck_selected_spec.
  - rewrite load_items_perm. f_equiv. f_equal.
    induction d as [|r d IH]; [done|]. simpl. by rewrite IH.
Qed.

Lemma update_row_other (item : Item) (success : bool) (r : DBRow.t) :
  DBRow.rowid r <> rowid item -> update_row item success r = r.
Proof.
  intros Hne. unfold update_row.
  by destruct (Z.eqb_spec (DBRow.rowid r) (rowid item)).
Qed.

Lemma update_row_rowid (item : Item) (success : bool) (r : DBRow.t) :
  DBRow.rowid (update_row item success r) = DBRow.rowid r.
Proof. unfold update_row. by destruct (DBRow.rowid r =? rowid item). Qed.

(** X7: [update_item] for a [rowid] that no row has leaves the table as
    it is. *)
Theorem update_item_absent (item : Item) (d : DB) (success : bool) :
  (forall r, r ∈ d -> DBRow.rowid r <> rowid item) ->
  update_item item d success = d.
Proof.
  intros Habs. unfold update_item.
  induction d as [|r d IH]; [done|]. simpl. f_equal.
  - apply update_row_other, Habs. by left.
  - apply IH. intros r' Hr'. apply Habs. by right.
Qed.

Lemma update_item_absent_witness :
  (forall r, r ∈ [card1] -> DBRow.rowid r <> rowid (mkItem 2 50 1)) /\
  update_item (mkItem 2 50 1) [card1] true = [card1].
Proof.
  assert (Habs : forall r, r ∈ [card1] -> DBRow.rowid r <> rowid (mkItem 2 50 1)).
  { intros r Hr. apply list_elem_of_singleton in Hr. by subst. }
  split; [exact Habs|]. exact (update_item_absent _ _ true Habs).
Defined.

(** X8: [update_item] never adds, removes or reorders rows and never
    changes a [rowid], a question, an answer or a deck. *)
Theorem update_item_keeps_cards (item : Item) (d : DB) (success : bool) :
  length (update_item item d success) = length d /\
  map DBRow.rowid (update_item item d success) = map DBRow.rowid d /\
  map DBRow.question (update_item item d success) = map DBRow.question d /\
  map DBRow.answer (update_item item d success) = map DBRow.answer d /\
  map DBRow.deck (update_item item d success) = map DBRow.deck d.
Proof.
  unfold update_item. split; [apply length_map|].
  rewrite !map_map.
  repeat split; apply map_ext; intros r; unfold update_row;
    by destruct (DBRow.rowid r =? rowid item).
Qed.

Lemma find_update_item (item it : Item) (d : DB) (success : bool) :
  List.find (fun r => DBRow.rowid r =? rowid it) (update_item item d success) =
    update_row item success <$> List.find (fun r => DBRow.rowid r =? rowid it) d.
Proof.
  unfold update_item. induction d as [|r d IH]; [done|].
  simpl. rewrite update_row_rowid.
  destruct (DBRow.rowid r =? rowid it); [done|]. apply IH.
Qed.

(** X9: [make_review_item] succeeds exactly when some row has the item's
    [rowid], and raises [TypeError] otherwise; the review item it returns
    carries the item itself and the counters, question, answer and
    history of a row with that [rowid]. *)
Theorem make_review_item_found (item : Item) (d : DB) :
  (rowid item ∈ map DBRow.rowid d ->
     exists r, r ∈ d /\ DBRow.rowid r = rowid item /\
       make_review_item item d =
         Ok (ReviewItem.mk item (DBRow.recalled r) (DBRow.forgot r)
               (DBRow.question r) (DBRow.answer r) (DBRow.history r))) /\
  (rowid item ∉ map DBRow.rowid d -> make_review_item item d = Raise TypeError).
Proof.
  unfold make_review_item.
  destruct (List.find _ d) as [r|] eqn:Hfind.
  - apply find_some in Hfind as [Hr Heq]. apply Z.eqb_eq in Heq.
    split.
    + intros _. exists r. split; [by apply list_elem_of_In|done].
    + intros Habs. destruct Habs. apply list_elem_of_fmap.
      exists r. split; [done|by apply list_elem_of_In].
  - split; [|done]. intros Hin. apply list_elem_of_fmap in Hin as (r & Heq & Hr).
    apply list_elem_of_In in Hr.
    pose proof (find_none _ _ Hfind r Hr) as Hne. simpl in Hne.
    apply Z.eqb_neq in Hne. congruence.
Qed.

Lemma make_review_item_found_witness :
  (exists r, r ∈ [card1] /\ DBRow.rowid r = 1 /\
     make_review_item (mkItem 1 0 0) [card1] =
       Ok (ReviewItem.mk (mkItem 1 0 0) (DBRow.recalled r) (DBRow.forgot r)
             (DBRow.question r) (DBRow.answer r) (DBRow.history r))) /\
  make_review_item (mkItem 2 0 0) [card1] = Raise TypeError.
Proof.
  split.
  - apply (proj1 (make_review_item_found (mkItem 1 0 0) [card1])).
    simpl. by left.
  - apply (proj2 (make_review_item_found (mkItem 2 0 0) [card1])).
    simpl. by intros ?%list_elem_of_singleton.
Defined.

(** X10: reading a card back after its update: when [make_review_item]
    finds the card, then after [update_item] for the same item it finds
    it again, with the matching counter one higher, the other counter
    unchanged and the marker appended to the history. *)
Theorem update_then_read (item : Item) (d : DB) (success : bool)
    (ri : ReviewItem.t) :
  make_review_item item d = Ok ri ->
  make_review_item item (update_item item d success) =
    Ok (ReviewItem.mk item
          (if success then ReviewItem.recalled ri + 1 else ReviewItem.recalled ri)
          (if success then ReviewItem.forgot ri else ReviewItem.forgot ri + 1)
          (ReviewItem.question ri) (ReviewItem.answer ri)
          (ReviewItem.history ri ++ (if success then "o" else "x"))%string).
Proof.
  unfold make_review_item. rewrite find_update_item.
  destruct (List.find _ d) as [r|] eqn:Hfind; [|done].
  intros [= <-]. simpl.
  apply find_some in Hfind as [_ Heq]. unfold update_row. by rewrite Heq.
Qed.

Lemma update_then_read_witness :
  make_review_item (mkItem 1 1010 1) [card1] =
    Ok (ReviewItem.mk (mkItem 1 1010 1) 0 0 "q1" "a1" "") /\
  make_review_item (mkItem 1 1010 1) (update_item (mkItem 1 1010 1) [card1] true) =
    Ok (ReviewItem.mk (mkItem 1 1010 1) 1 0 "q1" "a1" "o").
Proof.
  split; [reflexivity|].
  exact (update_then_read (mkItem 1 1010 1) [card1] true
           (ReviewItem.mk (mkItem 1 1010 1) 0 0 "q1" "a1" "") eq_refl).
Defined.

Lemma count_marker_append (c : ascii) (s1 s2 : string) :
  count_marker c (s1 ++ s2) = count_marker c s1 + count_marker c s2.
Proof. induction s1 as [|a s1 IH]; simpl; [done|]. rewrite IH. lia. Qed.

Lemma update_row_tallied (item : Item) (success : bool) (r : DBRow.t) :
  tallied r -> tallied (update_row item success r).
Proof.
  intros [Hrec Hfor]. unfold update_row.
  destruct (DBRow.rowid r =? rowid item); [|done].
  unfold tallied. simpl. rewrite !count_marker_append.
  destruct success; simpl; lia.
Qed.

(** X11: [update_item] keeps the counters in step with the history: if
    in every row [recalled] is the number of [o] markers and [forgot]
    the number of [x] markers of its history, the same holds after the
    update. *)
Theorem update_item_tallied (item : Item) (d : DB) (success : bool) :
  Forall tallied d -> Forall tallied (update_item item d success).
Proof.
  intros Hd. unfold update_item. apply Forall_fmap.
  eapply Forall_impl; [exact Hd|]. intros r. apply update_row_tallied.
Qed.

Lemma update_item_tallied_witness :
  Forall tallied [card1] /\
  Forall tallied (update_item (mkItem 1 1010 1) [card1] false).
Proof.
  assert (Hd : Forall tallied [card1]) by (repeat constructor).
  split; [exact Hd|]. exact (update_item_tallied _ _ false Hd).
Defined.

(** ** Import: what it can and cannot do to the table *)

Section ImportFrame.
Implicit Types (db : DB) (deck : string).

Lemma insert_row_ok db params db' :
  insert_row db params = Ok db' ->
  exists q a d, params = [q; a; d] /\ (q ∉ questions db) /\
    db' = db ++ [DBRow.mk (next_rowid db) 0 0 0 0 q a "" d].
Proof.
  unfold insert_row.
  destruct params as [|q [|a [|d [|? ?]]]]; try done.
  destruct (existsb _ db) eqn:Hex; [done|].
  intros [= <-]. exists q, a, d. split; [done|]. split; [|done].
  intros Hq. apply question_taken in Hq. congruence.
Qed.

Lemma insert_row_raise db params e :
  insert_row db params = Raise e ->
  (e = IntegrityError /\ length params = 3%nat) \/
  (e = ProgrammingError /\ length params <> 3%nat).
Proof.
  unfold insert_row.
  destruct params as [|q [|a [|d [|? ?]]]];
    try (intros [= <-]; right; split; [done|simpl; lia]).
  destruct (existsb _ db); [|done]. intros [= <-]. by left.
Qed.

Lemma next_rowid_above db r : r ∈ db -> DBRow.rowid r < next_rowid db.
Proof.
  unfold next_rowid. induction db as [|r0 db IH]; [by intros ?%elem_of_nil|].
  intros [->|Hr]%elem_of_cons; simpl; [lia|]. specialize (IH Hr). lia.
Qed.

Lemma grown_trans deck db1 db2 db3 :
  grown deck db1 db2 -> grown deck db2 db3 -> grown deck db1 db3.
Proof. intros H12. induction 1; [done|]. by apply grown_step. Qed.

Lemma _insert_into_item_ok batch : forall db db',
  _insert_into_item db batch = Ok db' ->
  exists added, db' = db ++ added /\ inserted_as added batch.
Proof.
  induction batch as [|p batch IH]; intros db db'; simpl.
  - intros [= <-]. exists []. rewrite app_nil_r. split; [done|]. constructor.
  - destruct (insert_row db p) as [db1|e] eqn:Hins; [|done]. simpl.
    intros Hrest. apply insert_row_ok in Hins as (q & a & d & -> & _ & ->).
    apply IH in Hrest as (added & -> & Hadd).
    eexists (_ :: added). rewrite <- app_assoc. split; [done|].
    by constructor.
Qed.

Lemma _insert_into_item_grown deck batch : forall db db',
  Forall (fun p => last p = Some deck) batch ->
  _insert_into_item db batch = Ok db' -> grown deck db db'.
Proof.
  induction batch as [|p batch IH]; intros db db' Hdeck; simpl.
  - intros [= <-]. constructor.
  - destruct (insert_row db p) as [db1|e] eqn:Hins; [|done]. simpl.
    apply Forall_cons in Hdeck as [Hp Hdeck].
    intros Hrest. apply insert_row_ok in Hins as (q & a & d & -> & Hq & ->).
    simpl in Hp. injection Hp as ->.
    eapply grown_trans; [|by apply IH].
    apply grown_step; [constructor|done..].
Qed.

Lemma _insert_into_item_raise batch : forall db e,
  _insert_into_item db batch = Raise e ->
  e = IntegrityError \/
  (e = ProgrammingError /\ exists p, p ∈ batch /\ length p <> 3%nat).
Proof.
  induction batch as [|p batch IH]; intros db e; simpl; [done|].
  destruct (insert_row db p) as [db1|e1] eqn:Hins; simpl.
  - intros [?|[? (p' & Hp' & Hlen)]]%IH; [by left|right].
    split; [done|]. exists p'. split; [by right|done].
  - intros [= <-]. apply insert_row_raise in Hins as [[-> _]|[-> Hlen]]; [by left|].
    right. split; [done|]. exists p. split; [by left|done].
Qed.

Lemma add_items_loop_grown deck (batch_size : nat) : forall csv_rows db batch,
  Forall (fun p => last p = Some deck) batch ->
  grown deck db (add_items_loop db deck csv_rows batch batch_size).2.
Proof.
  induction csv_rows as [|row csv_rows IH]; intros db batch Hbatch.
  - cbn [add_items_loop]. destruct batch as [|p batch]; [constructor|].
    destruct (_insert_into_item db (p :: batch)) as [db'|e] eqn:Hins;
      [|constructor].
    by eapply _insert_into_item_grown.
  - cbn [add_items_loop]. cbv zeta.
    assert (Hbatch' : Forall (fun p => last p = Some deck) (batch ++ [row ++ [deck]])).
    { apply Forall_app. split; [done|]. constructor; [|done]. apply last_snoc. }
    destruct (batch_size <=? length (batch ++ [row ++ [deck]]))%nat.
    + destruct (_insert_into_item db _) as [db'|e] eqn:Hins; [|constructor].
      eapply grown_trans; [by eapply _insert_into_item_grown|].
      apply IH. constructor.
    + by apply IH.
Qed.

Lemma add_items_loop_raise deck (batch_size : nat) : forall csv_rows db batch e,
  (add_items_loop db deck csv_rows batch batch_size).1 = Raise e ->
  e = IntegrityError \/
  (e = ProgrammingError /\
   exists p, p ∈ batch ++ map (fun row => row ++ [deck]) csv_rows /\
     length p <> 3%nat).
Proof.
  induction csv_rows as [|row csv_rows IH]; intros db batch e.
  - cbn [add_items_loop map]. rewrite app_nil_r.
    destruct batch as [|p batch]; [done|].
    destruct (_insert_into_item db (p :: batch)) as [db'|e'] eqn:Hins; [done|].
    intros [= <-]. by eapply _insert_into_item_raise.
  - cbn [add_items_loop map]. cbv zeta.
    destruct (batch_size <=? length (batch ++ [row ++ [deck]]))%nat.
    + destruct (_insert_into_item db _) as [db'|e'] eqn:Hins.
      * intros [?|[? (p & Hp & Hlen)]]%IH; [by left|right]. split; [done|].
        exists p. split; [|done]. cbn [app] in Hp.
        apply elem_of_app. right. by right.
      * intros [= <-].
        apply _insert_into_item_raise in Hins as [?|[? (p & Hp & Hlen)]];
          [by left|right].
        split; [done|]. exists p. split; [|done].
        apply elem_of_app in Hp as [Hp|Hp%list_elem_of_singleton];
          apply elem_of_app; [by left|right]. subst p. by left.
    + intros [?|[? (p & Hp & Hlen)]]%IH; [by left|right]. split; [done|].
      exists p. split; [|done]. by rewrite <- app_assoc in Hp.
Qed.

Lemma add_items_from_files_grown deck : forall files db out,
  grown deck db (add_items_from_files db deck files out).1.2.
Proof.
  induction files as [|[name rows] files IH]; intros db out; [constructor|].
  cbn [add_items_from_files]. unfold add_items.
  pose proof (add_items_loop_grown deck 1000 rows db [] ltac:(constructor)) as Hg.
  destruct (add_items_loop db deck rows [] 1000) as [[[]|e] db1]; simpl in Hg.
  - eapply grown_trans; [exact Hg|apply IH].
  - destruct e; try done. eapply grown_trans; [exact Hg|apply IH].
Qed.

Lemma grown_spec deck db db' :
  grown deck db db' ->
  exists added, db' = db ++ added /\ Forall (new_card deck) added /\
    (forall r r0, r ∈ added -> r0 ∈ db -> DBRow.rowid r0 < DBRow.rowid r) /\
    (well_keyed db -> well_keyed db').
Proof.
  induction 1 as [|db' r _ IH Hr Hid Hq];
    [|destruct IH as (added & -> & Hnew & Habove & Hkeys)].
  - exists []. rewrite app_nil_r. split; [done|]. split; [constructor|].
    split; [|done]. by intros r r0 ?%elem_of_nil.
  - exists (added ++ [r]). rewrite app_assoc. split; [done|].
    split; [apply Forall_app; split; [done|by constructor]|].
    split.
    + intros r1 r0 [Hr1|Hr1%list_elem_of_singleton]%elem_of_app Hr0;
        [by apply Habove|]. subst r1.
      rewrite Hid. apply next_rowid_above, elem_of_app. by left.
    + intros Hwk. destruct (Hkeys Hwk) as [Hids Hqs]. unfold well_keyed, questions in *.
      rewrite (map_app DBRow.rowid), (map_app DBRow.question). simpl. split.
      * apply NoDup_app. split; [done|]. split; [|apply NoDup_singleton].
        intros i Hi Hi'%list_elem_of_singleton. subst i.
        apply list_elem_of_fmap in Hi as (r0 & Hi & Hr0).
        apply next_rowid_above in Hr0. lia.
      * apply NoDup_app. split; [done|]. split; [|apply NoDup_singleton].
        intros q Hq' Hq''%list_elem_of_singleton. by subst q.
Qed.
End ImportFrame.

(** X12: whatever the files hold, [add_items_from_files] only appends
    to the table: the rows it found stay as they are and in place, and
    every row it adds is a new card of the given deck, with counters 0,
    [review_time] 0, [trial] 0 and an empty history, and with a [rowid]
    above those of the rows it found. *)
Theorem import_appends_new_cards (db : DB) (deck : string)
    (files : list (string * list (list string))) (out : list event) :
  exists added,
    (add_items_from_files db deck files out).1.2 = db ++ added /\
    Forall (new_card deck) added /\
    (forall r r0, r ∈ added -> r0 ∈ db -> DBRow.rowid r0 < DBRow.rowid r).
Proof.
  destruct (grown_spec _ _ _ (add_items_from_files_grown deck files db out))
    as (added & Heq & Hnew & Habove & _).
  by exists added.
Qed.

(** X13: the import keeps the keys of the table: when no two rows share
    a [rowid] or a question before [add_items_from_files], none do
    after it, whatever the files hold. *)
Theorem import_keeps_keys (db : DB) (deck : string)
    (files : list (string * list (list string))) (out : list event) :
  well_keyed db ->
  well_keyed (add_items_from_files db deck files out).1.2.
Proof.
  destruct (grown_spec _ _ _ (add_items_from_files_grown deck files db out))
    as (added & _ & _ & _ & Hkeys).
  exact Hkeys.
Qed.

Lemma import_keeps_keys_witness :
  well_keyed [card1] /\
  well_keyed
    (add_items_from_files [card1] "maths"
       [("a.csv", [["q2"; "a2"]; ["q3"; "a3"]]); ("b.csv", [["q1"; "again"]]);
        ("c.csv", [["q4"; "a4"]; ["q2"; "again"]])]%string []).1.2.
Proof.
  assert (Hwk : well_keyed [card1]).
  { split; apply NoDup_singleton. }
  split; [exact Hwk|]. exact (import_keeps_keys _ _ _ _ Hwk).
Defined.

(** X14: the only exception that [add_items_from_files] lets through is
    [ProgrammingError], and only when some CSV row of some file does not
    have exactly two fields. *)
Theorem import_fails_only_on_malformed_rows (db : DB) (deck : string)
    (files : list (string * list (list string))) (out : list event) :
  (add_items_from_files db deck files out).1.1 = Ok tt \/
  ((add_items_from_files db deck files out).1.1 = Raise ProgrammingError /\
   exists f row, f ∈ files /\ row ∈ f.2 /\ length row <> 2%nat).
Proof.
  revert db out.
  induction files as [|[name rows] files IH]; intros db out; [by left|].
  cbn [add_items_from_files]. unfold add_items.
  pose proof (add_items_loop_raise deck 1000 rows db []) as Hraise.
  assert (Hrest : forall db1 out1,
    (add_items_from_files db1 deck files out1).1.1 = Ok tt \/
    ((add_items_from_files db1 deck files out1).1.1 = Raise ProgrammingError /\
     exists f row, f ∈ (name, rows) :: files /\ row ∈ f.2 /\ length row <> 2%nat)).
  { intros db1 out1. destruct (IH db1 out1) as [?|[? (f & row & Hf & Hrow)]];
      [by left|right]. split; [done|]. exists f, row. split; [by right|done]. }
  destruct (add_items_loop db deck rows [] 1000) as [[[]|e] db1]; [apply Hrest|].
  destruct (Hraise e eq_refl) as [->|[-> (p & Hp & Hlen)]]; [apply Hrest|].
  right. split; [done|]. cbn [app] in Hp.
  apply list_elem_of_fmap in Hp as (row & -> & Hrow).
  exists (name, rows), row. split; [by left|]. split; [done|].
  rewrite length_app in Hlen. simpl in Hlen. lia.
Qed.

Lemma add_items_loop_small deck (batch_size : nat) : forall csv_rows db batch,
  (length batch + length csv_rows <= batch_size)%nat ->
  (csv_rows <> [] -> length batch < batch_size)%nat ->
  add_items_loop db deck csv_rows batch batch_size =
    match _insert_into_item db (batch ++ map (fun row => row ++ [deck]) csv_rows) with
    | Ok db' => (Ok tt, db')
    | Raise e => (Raise e, db)
    end.
Proof.
  induction csv_rows as [|row csv_rows IH]; intros db batch Hlen Hlt.
  - cbn [add_items_loop map]. rewrite app_nil_r. by destruct batch.
  - cbn [add_items_loop map]. cbv zeta. cbn [length] in Hlen.
    replace (batch ++ (row ++ [deck]) :: map (fun row => row ++ [deck]) csv_rows)
      with ((batch ++ [row ++ [deck]]) ++ map (fun row => row ++ [deck]) csv_rows)
      by by rewrite <- app_assoc.
    destruct (Nat.leb_spec batch_size (length (batch ++ [row ++ [deck]]))) as [Hfull|Hroom].
    + rewrite length_app in Hfull. cbn [length] in Hfull.
      destruct csv_rows as [|? ?]; [|cbn [length] in Hlen; lia].
      cbn [map]. rewrite app_nil_r.
      by destruct (_insert_into_item db _).
    + rewrite length_app in Hroom. cbn [length] in Hroom.
      apply IH; rewrite length_app; cbn [length]; lia.
Qed.

(** X15: a file with no more rows than the batch size is imported
    completely or not at all: [add_items] either inserts one new row for
    every CSV row, in order, or raises and leaves the table as it was. *)
Theorem small_file_all_or_nothing (db : DB) (deck : string)
    (csv_rows : list (list string)) (batch_size : nat) :
  (length csv_rows <= batch_size)%nat ->
  (exists added,
     add_items db deck csv_rows batch_size = (Ok tt, db ++ added) /\
     inserted_as added (map (fun row => row ++ [deck]) csv_rows)) \/
  (exists e, add_items db deck csv_rows batch_size = (Raise e, db) /\
     (e = IntegrityError \/ e = ProgrammingError)).
Proof.
  intros Hlen. unfold add_items.
  rewrite add_items_loop_small; [|simpl; lia|].
  2:{ destruct csv_rows; [done|]. simpl in *. lia. }
  cbn [app].
  destruct (_insert_into_item db _) as [db'|e] eqn:Hins.
  - left. apply _insert_into_item_ok in Hins as (added & -> & Hadd). by exists added.
  - right. exists e. split; [done|].
    apply _insert_into_item_raise in Hins as [?|[? _]]; [by left|by right].
Qed.

Lemma small_file_all_or_nothing_witness :
  (length [["q2"; "a2"]; ["q1"; "again"]]%string <= 1000)%nat /\
  add_items [card1] "maths" [["q2"; "a2"]; ["q1"; "again"]]%string 1000 =
    (Raise IntegrityError, [card1]).
Proof.
  split; [simpl; lia|].
  destruct (small_file_all_or_nothing [card1] "maths"
              [["q2"; "a2"]; ["q1"; "again"]]%string 1000 ltac:(simpl; lia))
    as [(added & Heq & _)|(e & Heq & _)].
  - vm_compute in Heq. discriminate Heq.
  - vm_compute in Heq. injection Heq as <-. reflexivity.
Defined.

(** ** The review dialogue, line by line *)

Lemma review_answer_decide (ri : ReviewItem.t) (mid post : list string) (y : string) :
  Forall ignored_at_answer mid ->
  y = "r"%string \/ y = "f"%string ->
  forall (n : nat) (w : World),
    (length mid < n)%nat -> stdin w = mid ++ y :: post ->
    review_answer n ri w =
      (Ok (Some (String.eqb y "r")),
       mkWorld (db w) post (ticks w)
         (stdout w ++ replicate (S (length mid)) (AskAnswer ri))).
Proof.
  intros Hmid Hy.
  induction Hmid as [|x mid [Hr Hf] Hmid IH]; intros n w Hn Hin;
    (destruct n as [|n]; [simpl in Hn; lia|]);
    simpl; unfold _prompt; rewrite !M_bind_eq; simpl; unfold input; simpl;
    rewrite Hin; simpl.
  - by destruct Hy as [-> | ->].
  - destruct (String.eqb_spec x "r") as [->|_]; [done|].
    destruct (String.eqb_spec x "f") as [->|_]; [done|].
    rewrite IH; [|simpl in *; lia|done]. simpl.
    by rewrite <- app_assoc.
Qed.

Lemma review_answer_eof (ri : ReviewItem.t) (mid : list string) :
  Forall ignored_at_answer mid ->
  forall (n : nat) (w : World),
    (length mid < n)%nat -> stdin w = mid ->
    review_answer n ri w =
      (Raise EOFError,
       mkWorld (db w) [] (ticks w)
         (stdout w ++ replicate (S (length mid)) (AskAnswer ri))).
Proof.
  induction 1 as [|x mid [Hr Hf] Hmid IH]; intros n w Hn Hin;
    (destruct n as [|n]; [simpl in Hn; lia|]);
    simpl; unfold _prompt; rewrite !M_bind_eq; simpl; unfold input; simpl;
    rewrite Hin; simpl.
  - done.
  - destruct (String.eqb_spec x "r") as [->|_]; [done|].
    destruct (String.eqb_spec x "f") as [->|_]; [done|].
    rewrite IH; [|simpl in *; lia|done]. simpl.
    by rewrite <- app_assoc.
Qed.

(** The question prompt hands over to the answer prompt at the first
    [a], after any number of ignored lines. *)
Lemma review_question_reveal (ri : ReviewItem.t) (pre rest : list string) :
  Forall ignored_at_question pre ->
  forall (n : nat) (w : World),
    (length pre < n)%nat -> stdin w = pre ++ "a"%string :: rest ->
    review_question n ri w =
      review_answer (n - S (length pre)) ri
        (mkWorld (db w) rest (ticks w)
           (stdout w ++ replicate (S (length pre)) (AskQuestion ri))).
Proof.
  induction 1 as [|x pre [Hq Ha] Hpre IH]; intros n w Hn Hin;
    (destruct n as [|n]; [simpl in Hn; lia|]);
    simpl; unfold _prompt; rewrite !M_bind_eq; simpl; unfold input; simpl;
    rewrite Hin; simpl.
  - by rewrite Nat.sub_0_r.
  - destruct (String.eqb_spec x "q") as [->|_]; [done|].
    destruct (String.eqb_spec x "a") as [->|_]; [done|]. simpl.
    rewrite IH; [|simpl in *; lia|done]. simpl.
    by rewrite <- app_assoc.
Qed.

Lemma review_question_eof (ri : ReviewItem.t) (pre : list string) :
  Forall ignored_at_question pre ->
  forall (n : nat) (w : World),
    (length pre < n)%nat -> stdin w = pre ->
    review_question n ri w =
      (Raise EOFError,
       mkWorld (db w) [] (ticks w)
         (stdout w ++ replicate (S (length pre)) (AskQuestion ri))).
Proof.
  induction 1 as [|x pre [Hq Ha] Hpre IH]; intros n w Hn Hin;
    (destruct n as [|n]; [simpl in Hn; lia|]);
    simpl; unfold _prompt; rewrite !M_bind_eq; simpl; unfold input; simpl;
    rewrite Hin; simpl.
  - done.
  - destruct (String.eqb_spec x "q") as [->|_]; [done|].
    destruct (String.eqb_spec x "a") as [->|_]; [done|]. simpl.
    rewrite IH; [|simpl in *; lia|done]. simpl.
    by rewrite <- app_assoc.
Qed.

(** X16: the path of [review] to a decision.  Lines other than [q] and
    [a] are ignored at the question prompt; after the first [a], lines
    other than [r] and [f] are ignored at the answer prompt, [q] and
    [a] included, and the question is not asked again; [r] returns
    [True] and [f] returns [False].  Each line read was preceded by one
    prompt, and the lines after the decision are left unread. *)
Theorem review_decision (ri : ReviewItem.t) (pre mid post : list string)
    (y : string) (w : World) :
  Forall ignored_at_question pre ->
  Forall ignored_at_answer mid ->
  y = "r"%string \/ y = "f"%string ->
  stdin w = pre ++ "a"%string :: mid ++ y :: post ->
  review ri w =
    (Ok (Some (String.eqb y "r")),
     mkWorld (db w) post (ticks w)
       (stdout w ++ replicate (S (length pre)) (AskQuestion ri)
                 ++ replicate (S (length mid)) (AskAnswer ri))).
Proof.
  intros Hpre Hmid Hy Hin. unfold review.
  rewrite (review_question_reveal ri pre (mid ++ y :: post) Hpre);
    [| rewrite Hin, length_app; simpl; lia | done].
  rewrite (review_answer_decide ri mid post y Hmid Hy); [|..|done].
  - simpl. by rewrite <- app_assoc.
  - simpl. rewrite Hin, !length_app. simpl. rewrite length_app. simpl. lia.
Qed.

Lemma review_decision_witness :
  let ri := ReviewItem.mk (mkItem 1 0 0) 0 0 "q1" "a1" "" in
  let w := mkWorld [card1] ["x"; "a"; "q"; "a"; "f"; "r"]%string 0 [] in
  Forall ignored_at_question ["x"%string] /\
  Forall ignored_at_answer ["q"; "a"]%string /\
  review ri w =
    (Ok (Some false),
     mkWorld [card1] ["r"%string] 0
       [AskQuestion ri; AskQuestion ri; AskAnswer ri; AskAnswer ri; AskAnswer ri]).
Proof.
  intros ri w.
  assert (Hpre : Forall ignored_at_question ["x"%string]) by (by repeat constructor).
  assert (Hmid : Forall ignored_at_answer ["q"; "a"]%string) by (by repeat constructor).
  split; [exact Hpre|]. split; [exact Hmid|].
  exact (review_decision ri ["x"%string] ["q"; "a"]%string ["r"%string] "f" w
           Hpre Hmid (or_intror eq_refl) eq_refl).
Defined.

(** X17: [review] at the end of input.  When the input ends before a
    decision, at the question prompt or, after [a], at the answer
    prompt, [review] raises [EOFError], after one more prompt than
    lines read at that prompt. *)
Theorem review_end_of_input (ri : ReviewItem.t) (pre mid : list string)
    (w : World) :
  Forall ignored_at_question pre ->
  Forall ignored_at_answer mid ->
  (stdin w = pre ->
   review ri w =
     (Raise EOFError,
      mkWorld (db w) [] (ticks w)
        (stdout w ++ replicate (S (length pre)) (AskQuestion ri)))) /\
  (stdin w = pre ++ "a"%string :: mid ->
   review ri w =
     (Raise EOFError,
      mkWorld (db w) [] (ticks w)
        (stdout w ++ replicate (S (length pre)) (AskQuestion ri)
                  ++ replicate (S (length mid)) (AskAnswer ri)))).
Proof.
  intros Hpre Hmid. unfold review. split; intros Hin.
  - apply review_question_eof; [done| |done]. rewrite Hin. lia.
  - rewrite (review_question_reveal ri pre mid Hpre);
      [| rewrite Hin, length_app; simpl; lia | done].
    rewrite (review_answer_eof ri mid Hmid); [|..|done].
    + simpl. by rewrite <- app_assoc.
    + simpl. rewrite Hin, !length_app. simpl. lia.
Qed.

Lemma review_end_of_input_witness :
  let ri := ReviewItem.mk (mkItem 1 0 0) 0 0 "q1" "a1" "" in
  Forall ignored_at_question ["x"%string] /\
  Forall ignored_at_answer ["q"%string] /\
  review ri (mkWorld [card1] ["x"%string] 0 []) =
    (Raise EOFError, mkWorld [card1] [] 0 [AskQuestion ri; AskQuestion ri]) /\
  review ri (mkWorld [card1] ["x"; "a"; "q"]%string 0 []) =
    (Raise EOFError,
     mkWorld [card1] [] 0
       [AskQuestion ri; AskQuestion ri; AskAnswer ri; AskAnswer ri]).
Proof.
  intros ri.
  assert (Hpre : Forall ignored_at_question ["x"%string]) by (by repeat constructor).
  assert (Hmid : Forall ignored_at_answer ["q"%string]) by (by repeat constructor).
  split; [exact Hpre|]. split; [exact Hmid|]. split.
  - exact (proj1 (review_end_of_input ri ["x"%string] ["q"%string]
                    (mkWorld [card1] ["x"%string] 0 []) Hpre Hmid) eq_refl).
  - exact (proj2 (review_end_of_input ri ["x"%string] ["q"%string]
                    (mkWorld [card1] ["x"; "a"; "q"]%string 0 []) Hpre Hmid) eq_refl).
Defined.

(** ** The history shown with a question *)

Lemma list_ascii_of_string_length (s : string) :
  length (list_ascii_of_string s) = String.length s.
Proof. induction s; simpl; congruence. Qed.

(** X18: the history field of the status line always has five
    characters: the most recent markers of the history, newest first,
    then dashes when the history has fewer than five. *)
Theorem history_window_shape (history : string) (k : nat) :
  (k < 5)%nat ->
  String.length (history_window history) = 5%nat /\
  list_ascii_of_string (history_window history) !! k =
    if (k <? String.length history)%nat
    then list_ascii_of_string history !! (String.length history - 1 - k)%nat
    else Some "-"%char.
Proof.
  intros Hk. unfold history_window. cbv zeta.
  rewrite <- !list_ascii_of_string_length.
  rewrite list_ascii_of_string_of_list_ascii.
  set (h := list_ascii_of_string history).
  assert (Hlen : length (reverse (drop (length h - 5) h)) = Nat.min 5 (length h)).
  { rewrite length_reverse, length_drop. lia. }
  split.
  - rewrite length_take, length_app, Hlen.
    change (length (list_ascii_of_string "-----")) with 5%nat. lia.
  - rewrite lookup_take_lt by done.
    destruct (Nat.ltb_spec k (length h)) as [Hlt|Hge].
    + rewrite lookup_app_l by lia.
      rewrite reverse_lookup by (rewrite length_drop; lia).
      rewrite length_drop, lookup_drop. f_equal. lia.
    + rewrite lookup_app_r by lia. rewrite Hlen.
      replace (Nat.min 5 (length h)) with (length h) by lia.
      simpl. destruct (k - length h)%nat as [|[|[|[|[|?]]]]] eqn:He; try done.
      lia.
Qed.

Lemma history_window_shape_witness :
  (1 < 5)%nat /\
  history_window "oxo" = "oxo--"%string /\
  history_window "xxoxoxo" = "oxoxo"%string /\
  list_ascii_of_string (history_window "xxoxoxx") !! 1%nat = Some "x"%char.
Proof.
  split; [lia|]. split; [reflexivity|]. split; [reflexivity|].
  exact (proj2 (history_window_shape "xxoxoxx" 1 ltac:(lia))).
Defined.

(** ** The session as a whole *)

Section TransitionMore.
Context `{PyFloat}.

Lemma transition_rowid (now : float) (item item' : Item) (intervals : list float)
    (success : bool) :
  (if success then add_success now item intervals
   else add_failure now item intervals) = Ok item' ->
  rowid item' = rowid item.
Proof.
  destruct success; unfold add_success, add_failure, _update_items;
    destruct (getitem intervals _); simpl; by intros [= <-].
Qed.



End TransitionMore.


Lemma queue_ok_perm (n : nat) (items items' : list Item) (d : DB) :
  items ≡ₚ items' -> queue_ok n items d -> queue_ok n items' d.
Proof. intros Hperm [Hnd Hall]. split; by rewrite <- Hperm. Qed.



Lemma NoDup_map_filter {A B} (f : A -> B) (p : A -> bool) (l : list A) :
  NoDup (map f l) -> NoDup (map f (List.filter p l)).
Proof.
  induction l as [|a l IH]; [done|]. simpl.
  intros [Ha Hl]%NoDup_cons. destruct (p a); [|by apply IH].
  simpl. apply NoDup_cons. split; [|by apply IH].
  intros (x & Hx & Hin)%list_elem_of_fmap. apply Ha.
  apply list_elem_of_fmap. exists x. split; [done|].
  apply list_elem_of_In, filter_In in Hin as [Hin _]. by apply list_elem_of_In.
Qed.

Lemma update_item_same_cards (item : Item) (d : DB) (success : bool) :
  same_cards d (update_item item d success).
Proof.
  unfold same_cards, update_item. rewrite !map_map.
  repeat split; apply map_ext; intros r; unfold update_row;
    by destruct (DBRow.rowid r =? rowid item).
Qed.

Lemma same_cards_trans (d1 d2 d3 : DB) :
  same_cards d1 d2 -> same_cards d2 d3 -> same_cards d1 d3.
Proof.
  intros (? & ? & ? & ?) (? & ? & ? & ?). repeat split; congruence.
Qed.

Lemma due_queue_is_heap (d : DB) (decks : list string) (h : list Item) :
  due_queue d decks h -> is_heap h.
Proof.
  induction 1 as [|h x h' _ IH Hpop|h x _ IH].
  - apply heapify_spec.
  - by destruct (heappop_is_heap _ _ _ IH Hpop).
  - by apply heappush_spec.
Qed.

Lemma is_heap_first_min (first : Item) (l : list Item) :
  is_heap (first :: l) ->
  forall it, it ∈ first :: l -> review_time first <= review_time it.
Proof.
  intros Hh it Hit. apply list_elem_of_lookup in Hit as [i Hi].
  pose proof (root_min _ Hh i (lookup_lt_Some _ _ _ Hi)) as Hmin.
  unfold key_at in Hmin.
  by rewrite (list_lookup_total_correct _ _ _ Hi) in Hmin.
Qed.
Section SessionWhole.
Context `{PyFloat}.
Variable clock : nat -> float.

(** Every way through the body of the loop. *)
Lemma start_review_body_cases (items : list Item) (intervals : list float)
    (w : World) r w' :
  start_review_body clock items intervals w = (r, w') ->
  (exists e, heappop items = Raise e /\ r = Raise e /\ w' = w) \/
  exists item rest, heappop items = Ok (item, rest) /\
    ((exists e, make_review_item item (db w) = Raise e /\ r = Raise e /\ w' = w) \/
     exists ri, make_review_item item (db w) = Ok ri /\
       ((exists e, review ri w = (Raise e, w') /\ r = Raise e) \/
        (review ri w = (Ok None, w') /\ r = Ok (false, rest)) \/
        exists (success : bool) w1,
          review ri w = (Ok (Some success), w1) /\
          ((exists e,
              (if success then add_success (clock (ticks w1)) item intervals
               else add_failure (clock (ticks w1)) item intervals) = Raise e /\
              r = Raise e /\
              w' = mkWorld (db w1) (stdin w1) (S (ticks w1)) (stdout w1)) \/
           exists item',
              (if success then add_success (clock (ticks w1)) item intervals
               else add_failure (clock (ticks w1)) item intervals) = Ok item' /\
              r = Ok (true, heappush rest item') /\
              w' = mkWorld (update_item item' (db w1) success) (stdin w1)
                     (S (ticks w1)) (stdout w1 ++ [BlankLine])))).
Proof.
  unfold start_review_body. rewrite M_bind_eq. unfold lift at 1.
  destruct (heappop items) as [[item rest]|e] eqn:Hpop.
  2:{ intros [= <- <-]. left. by exists e. }
  intros Hrun. right. exists item, rest. split; [done|]. revert Hrun.
  rewrite M_bind_eq. rewrite M_bind_eq. unfold get_db at 1. unfold lift at 1.
  destruct (make_review_item item (db w)) as [ri|e] eqn:Hri.
  2:{ intros [= <- <-]. left. by exists e. }
  intros Hrun. right. exists ri. split; [done|]. revert Hrun.
  rewrite M_bind_eq.
  destruct (review ri w) as [[[[|]|]|e] w1] eqn:Hrev.
  - rewrite M_bind_eq. unfold time at 1. rewrite M_bind_eq. unfold lift at 1.
    destruct (add_success _ item intervals) as [item'|e] eqn:Hadd.
    + intros [= <- <-]. right. right. exists true, w1. split; [done|].
      right. by exists item'.
    + intros [= <- <-]. right. right. exists true, w1. split; [done|].
      left. by exists e.
  - rewrite M_bind_eq. unfold time at 1. rewrite M_bind_eq. unfold lift at 1.
    destruct (add_failure _ item intervals) as [item'|e] eqn:Hadd.
    + intros [= <- <-]. right. right. exists false, w1. split; [done|].
      right. by exists item'.
    + intros [= <- <-]. right. right. exists false, w1. split; [done|].
      left. by exists e.
  - intros [= <- <-]. right. by left.
  - intros [= <- <-]. left. by exists e.
Qed.

(** A turn of the loop, seen from the list and the table. *)
Lemma start_review_body_turn (items : list Item) (intervals : list float)
    (w : World) items' w' :
  start_review_body clock items intervals w = (Ok (true, items'), w') ->
  exists item l rest now (success : bool) item',
    items = item :: l /\ rest ≡ₚ l /\
    heappop items = Ok (item, rest) /\
    (if success then add_success now item intervals
     else add_failure now item intervals) = Ok item' /\
    items' = heappush rest item' /\
    db w' = update_item item' (db w) success.
Proof.
  intros Hrun. apply start_review_body_cases in Hrun
    as [(e & _ & ? & _)|(item & rest & Hpop & Hrun)]; [done|].
  destruct Hrun as [(e & _ & ? & _)|(ri & Hri & Hrun)]; [done|].
  destruct Hrun as [(e & _ & ?)|[[_ ?]|(success & w1 & Hrev & Hrun)]]; [done..|].
  destruct Hrun as [(e & _ & ? & _)|(item' & Hadd & [= ->] & ->)]; [done|].
  destruct (heappop_inv _ _ _ Hpop) as (l & -> & Hperm).
  destruct (review_spec _ _ _ _ Hrev) as ([Hdb _] & _).
  exists item, l, rest, (clock (ticks w1)), success, item'.
  simpl. by rewrite Hdb.
Qed.

Lemma start_review_body_break (items : list Item) (intervals : list float)
    (w : World) items' w' :
  start_review_body clock items intervals w = (Ok (false, items'), w') ->
  exists item l,
    items = item :: l /\ items' ≡ₚ l /\
    heappop items = Ok (item, items') /\
    db w' = db w /\
    exists junk, stdin w = junk ++ "q"%string :: stdin w'.
Proof.
  intros Hrun. apply start_review_body_cases in Hrun
    as [(e & _ & ? & _)|(item & rest & Hpop & Hrun)]; [done|].
  destruct Hrun as [(e & _ & ? & _)|(ri & Hri & Hrun)]; [done|].
  destruct Hrun as [(e & _ & ?)|[[Hrev [= ->]]|(success & w1 & Hrev & Hrun)]];
    [done| |].
  - destruct (heappop_inv _ _ _ Hpop) as (l & -> & Hperm).
    destruct (review_spec _ _ _ _ Hrev) as ([Hdb _] & (used & Hused & junk & ->) & _).
    exists item, l. repeat (split; [done|]).
    exists junk. by rewrite Hused, <- app_assoc.
  - by destruct Hrun as [(e & _ & ? & _)|(item' & _ & ? & _)].
Qed.

Lemma start_review_body_db (items : list Item) (intervals : list float)
    (w : World) r w' :
  start_review_body clock items intervals w = (r, w') ->
  db w' = db w \/
  exists item' (success : bool), db w' = update_item item' (db w) success.
Proof.
  destruct r as [[[|] items']|e]; intros Hrun.
  - apply start_review_body_turn in Hrun
      as (item & l & rest & now & success & item' & _ & _ & _ & _ & _ & Hdb).
    right. by exists item', success.
  - apply start_review_body_break in Hrun as (item & l & _ & _ & _ & Hdb & _).
    by left.
  - apply start_review_body_spec in Hrun as [Hdb _]. by left.
Qed.

Lemma start_review_body_stdout (items : list Item) (intervals : list float)
    (w : World) r w' :
  start_review_body clock items intervals w = (r, w') ->
  exists evs, stdout w' = stdout w ++ evs /\ Forall session_event evs.
Proof.
  assert (Hrev : forall ri w0 r0 w1, review ri w0 = (r0, w1) ->
            exists evs, stdout w1 = stdout w0 ++ evs /\ Forall session_event evs).
  { intros ri w0 r0 w1 Hrun.
    apply review_spec in Hrun as (_ & _ & (evs & -> & Hall)).
    exists (AskQuestion ri :: evs). split; [done|]. constructor; [done|].
    eapply Forall_impl; [exact Hall|]. by intros e [-> | ->]. }
  intros Hrun. apply start_review_body_cases in Hrun
    as [(e & _ & _ & ->)|(item & rest & Hpop & Hrun)].
  { exists []. by rewrite app_nil_r. }
  destruct Hrun as [(e & _ & _ & ->)|(ri & Hri & Hrun)].
  { exists []. by rewrite app_nil_r. }
  destruct Hrun as [(e & Hrun & _)|[[Hrun _]|(success & w1 & Hrun & Hrest)]];
    [by eapply Hrev..|].
  apply Hrev in Hrun as (evs & Hevs & Hall).
  destruct Hrest as [(e & _ & _ & ->)|(item' & _ & _ & ->)]; simpl.
  - by exists evs.
  - exists (evs ++ [BlankLine]). rewrite Hevs, <- app_assoc. split; [done|].
    apply Forall_app. split; [done|]. by constructor.
Qed.

Lemma start_review_loop_is_heap (intervals : list float) n items w r w' :
  start_review_loop clock n items intervals w = Some (r, w') ->
  is_heap items -> forall items', r = Ok items' -> is_heap items'.
Proof.
  revert n items w r w'.
  apply (start_review_loop_ind clock intervals
           (fun items w r w' =>
              is_heap items -> forall items', r = Ok items' -> is_heap items')).
  - intros items w w1 _ Hh items' [= <-]. done.
  - done.
  - intros items w w1 items1 w2 _ Hbody Hh items' [= <-].
    apply start_review_body_break in Hbody as (item & l & _ & _ & Hpop & _).
    by destruct (heappop_is_heap _ _ _ Hh Hpop).
  - intros items w w1 items1 w2 r w' _ Hbody IH Hh.
    apply IH.
    apply start_review_body_turn in Hbody
      as (item & l & rest & now & success & item' & _ & _ & Hpop & _ & -> & _).
    apply heappush_spec. by destruct (heappop_is_heap _ _ _ Hh Hpop).
Qed.

End SessionWhole.



(** X20: the list that [load_items] builds agrees with the table it was
    read from, provided the table has one row per [rowid] (as SQLite
    guarantees) and every stored trial is a position of the interval
    table. *)
Theorem load_items_agrees (d : DB) (decks : list string) (n : nat) :
  NoDup (map DBRow.rowid d) ->
  Forall (fun r => 0 <= DBRow.trial r < Z.of_nat n) d ->
  queue_ok n (load_items d decks) d.
Proof.
  intros Hnd Htr.
  eapply queue_ok_perm; [symmetry; apply load_items_perm|]. split.
  - rewrite map_map. simpl. by apply NoDup_map_filter.
  - apply Forall_forall. intros it (r & -> & Hr)%list_elem_of_fmap.
    apply list_elem_of_In, filter_In in Hr as [Hr _]. apply list_elem_of_In in Hr.
    split; [apply list_elem_of_fmap; by exists r|].
    rewrite Forall_forall in Htr. by apply Htr.
Qed.

Lemma load_items_agrees_witness :
  NoDup (map DBRow.rowid [card1]) /\
  Forall (fun r => 0 <= DBRow.trial r < Z.of_nat 3) [card1] /\
  queue_ok 3 (load_items [card1] ["default"%string]) [card1].
Proof.
  assert (Hnd : NoDup (map DBRow.rowid [card1])) by apply NoDup_singleton.
  assert (Htr : Forall (fun r => 0 <= DBRow.trial r < Z.of_nat 3) [card1]).
  { constructor; [simpl; lia|done]. }
  split; [exact Hnd|]. split; [exact Htr|].
  exact (load_items_agrees [card1] ["default"%string] 3 Hnd Htr).
Defined.

Lemma same_cards_refl (d : DB) : same_cards d d.
Proof. by repeat split. Qed.

(** X21: a session never adds, removes or reorders rows of the table,
    and never changes a [rowid], a question, an answer or a deck,
    whatever the list, the intervals and the input are. *)
Theorem session_keeps_cards `{PyFloat} (clock : nat -> float)
    (items : list Item) (intervals : list float) (w : World) :
  exists r w',
    start_review clock items intervals w = Some (r, w') /\
    same_cards (db w) (db w').
Proof.
  destruct (start_review_total clock items intervals w) as (r & w' & Hrun).
  exists r, w'. split; [done|]. unfold start_review in Hrun.
  revert Hrun. generalize (S (length (stdin w))). intros n. revert n items w r w'.
  assert (Hdue : forall items w b w1,
            due clock items w = (Ok b, w1) -> db w1 = db w).
  { intros items w b w1 Hdue.
    destruct (due_never_raises clock items w) as (b' & w1' & Hdue' & Hdb & _).
    congruence. }
  assert (Hbody : forall items w r w',
            start_review_body clock items intervals w = (r, w') ->
            same_cards (db w) (db w')).
  { intros items w r w' [->|(item' & success & ->)]%start_review_body_db.
    - apply same_cards_refl.
    - apply update_item_same_cards. }
  apply (start_review_loop_ind clock intervals
           (fun items w r w' => same_cards (db w) (db w'))).
  - intros items w w1 Hd. rewrite (Hdue _ _ _ _ Hd). apply same_cards_refl.
  - intros items w w1 e w2 Hd Hb. rewrite <- (Hdue _ _ _ _ Hd). by eapply Hbody.
  - intros items w w1 items' w2 Hd Hb. rewrite <- (Hdue _ _ _ _ Hd). by eapply Hbody.
  - intros items w w1 items' w2 r w' Hd Hb IH.
    eapply same_cards_trans; [|exact IH].
    rewrite <- (Hdue _ _ _ _ Hd). by eapply Hbody.
Qed.

(** X22: a session keeps the counters in step with the histories: if in
    every row [recalled] is the number of [o] markers and [forgot] the
    number of [x] markers of its history, the same holds when the
    session ends, however it ends. *)
Theorem session_keeps_tallies `{PyFloat} (clock : nat -> float)
    (items : list Item) (intervals : list float) (w : World) :
  Forall tallied (db w) ->
  exists r w',
    start_review clock items intervals w = Some (r, w') /\
    Forall tallied (db w').
Proof.
  intros Htal.
  destruct (start_review_total clock items intervals w) as (r & w' & Hrun).
  exists r, w'. split; [done|]. revert Htal. unfold start_review in Hrun.
  revert Hrun. generalize (S (length (stdin w))). intros n. revert n items w r w'.
  assert (Hdue : forall items w b w1,
            due clock items w = (Ok b, w1) -> db w1 = db w).
  { intros items w b w1 Hdue.
    destruct (due_never_raises clock items w) as (b' & w1' & Hdue' & Hdb & _).
    congruence. }
  assert (Hbody : forall items w r w',
            start_review_body clock items intervals w = (r, w') ->
            Forall tallied (db w) -> Forall tallied (db w')).
  { intros items w r w' [->|(item' & success & ->)]%start_review_body_db Hall;
      [done|].
    unfold update_item. apply Forall_fmap.
    eapply Forall_impl; [exact Hall|]. intros row. apply update_row_tallied. }
  apply (start_review_loop_ind clock intervals
           (fun items w r w' => Forall tallied (db w) -> Forall tallied (db w'))).
  - intros items w w1 Hd. by rewrite (Hdue _ _ _ _ Hd).
  - intros items w w1 e w2 Hd Hb Hall. eapply Hbody; [done|].
    by rewrite (Hdue _ _ _ _ Hd).
  - intros items w w1 items' w2 Hd Hb Hall. eapply Hbody; [done|].
    by rewrite (Hdue _ _ _ _ Hd).
  - intros items w w1 items' w2 r w' Hd Hb IH Hall.
    apply IH. eapply Hbody; [done|]. by rewrite (Hdue _ _ _ _ Hd).
Qed.

Lemma session_keeps_tallies_witness :
  Forall tallied [card1] /\
  exists r w',
    start_review (H := Q_float) example_clock [mkItem 1 0 0] example_intervals
      (mkWorld [card1] ["a"; "f"; "a"; "r"]%string 0 []) = Some (r, w') /\
    Forall tallied (db w').
Proof.
  assert (Htal : Forall tallied [card1]) by (by repeat constructor).
  split; [exact Htal|].
  exact (session_keeps_tallies (H := Q_float) example_clock [mkItem 1 0 0]
           example_intervals
           (mkWorld [card1] ["a"; "f"; "a"; "r"]%string 0 []) Htal).
Defined.

(** X23: a session neither invents nor duplicates items: when
    [start_review] returns, its list holds the [rowid]s it started
    with, each as often as before, except that after a quit the
    [rowid] of the card that was being asked is missing once. *)
Theorem session_conserves_items `{PyFloat} (clock : nat -> float)
    (items : list Item) (intervals : list float) (w : World) :
  exists r w',
    start_review clock items intervals w = Some (r, w') /\
    forall items', r = Ok items' ->
      map rowid items' ≡ₚ map rowid items \/
      exists x junk,
        map rowid items ≡ₚ x :: map rowid items' /\
        stdin w = junk ++ "q"%string :: stdin w'.
Proof.
  destruct (start_review_total clock items intervals w) as (r & w' & Hrun).
  exists r, w'. split; [done|]. unfold start_review in Hrun.
  revert Hrun. generalize (S (length (stdin w))). intros n. revert n items w r w'.
  apply (start_review_loop_ind clock intervals
           (fun items w r w' =>
              forall items', r = Ok items' ->
                map rowid items' ≡ₚ map rowid items \/
                exists x junk,
                  map rowid items ≡ₚ x :: map rowid items' /\
                  stdin w = junk ++ "q"%string :: stdin w')).
  - intros items w w1 _ items' [= <-]. by left.
  - done.
  - intros items w w1 items1 w2 Hdue Hbody items' [= <-].
    apply due_true_inv in Hdue as (first & l & -> & _ & ->).
    apply start_review_body_break in Hbody
      as (item & l' & [= <- <-] & Hperm & _ & _ & (junk & Hjunk)).
    right. exists (rowid first), junk. simpl in *. by rewrite Hperm.
  - intros items w w1 items1 w2 r w' Hdue Hbody IH items' Hr.
    apply due_true_inv in Hdue as (first & l & -> & _ & ->).
    destruct (start_review_body_trace clock _ _ _ _ _ Hbody)
      as (_ & (used & Hused) & _).
    apply start_review_body_turn in Hbody
      as (item & l' & rest & now & success & item' & [= <- <-] & Hperm & _
          & Hadd & -> & _).
    apply transition_rowid in Hadd.
    assert (Hsame : map rowid (heappush rest item') ≡ₚ map rowid (first :: l)).
    { rewrite heappush_perm. simpl. by rewrite Hadd, Hperm. }
    destruct (IH items' Hr) as [Hkeep|(x & junk & Hdrop & Hjunk)].
    + left. by rewrite Hkeep.
    + right. exists x, (used ++ junk). split; [by rewrite <- Hsame|].
      simpl in Hused. by rewrite Hused, Hjunk, <- app_assoc.
Qed.

(** X24: the list of a running session is always one of the lists of
    the due queue: when [start_review] starts from the list built by
    [load_items], or from any list obtained from it by pops and pushes,
    it returns such a list. *)
Theorem session_list_is_due_queue `{PyFloat} (clock : nat -> float)
    (d : DB) (decks : list string)
    (items : list Item) (intervals : list float) (w : World) :
  due_queue d decks items ->
  exists r w',
    start_review clock items intervals w = Some (r, w') /\
    forall items', r = Ok items' -> due_queue d decks items'.
Proof.
  intros Hq.
  destruct (start_review_total clock items intervals w) as (r & w' & Hrun).
  exists r, w'. split; [done|]. revert Hq. unfold start_review in Hrun.
  revert Hrun. generalize (S (length (stdin w))). intros n. revert n items w r w'.
  apply (start_review_loop_ind clock intervals
           (fun items w r w' =>
              due_queue d decks items ->
              forall items', r = Ok items' -> due_queue d decks items')).
  - by intros items w w1 _ Hq items' [= <-].
  - done.
  - intros items w w1 items1 w2 _ Hbody Hq items' [= <-].
    apply start_review_body_break in Hbody as (item & l & _ & _ & Hpop & _).
    by eapply due_queue_popped.
  - intros items w w1 items1 w2 r w' _ Hbody IH Hq.
    apply IH.
    apply start_review_body_turn in Hbody
      as (item & l & rest & now & success & item' & _ & _ & Hpop & _ & -> & _).
    apply due_queue_pushed. by eapply due_queue_popped.
Qed.

Lemma session_list_is_due_queue_witness :
  due_queue [card1] [] (load_items [card1] []) /\
  exists r w',
    start_review (H := Q_float) example_clock (load_items [card1] [])
      example_intervals (mkWorld [card1] ["a"; "r"]%string 0 []) = Some (r, w') /\
    forall items', r = Ok items' -> due_queue [card1] [] items'.
Proof.
  split; [apply due_queue_loaded|].
  exact (session_list_is_due_queue (H := Q_float) example_clock [card1] []
           (load_items [card1] []) example_intervals
           (mkWorld [card1] ["a"; "r"]%string 0 []) (due_queue_loaded _ _)).
Defined.

Lemma Q_float_monotone (i j : Z) (x : Q) :
  i <= j ->
  @int_le_float Q_float j x = true -> @int_le_float Q_float i x = true.
Proof.
  simpl. rewrite !Qle_bool_iff. intros Hij Hj.
  eapply Qle_trans; [|exact Hj]. by rewrite <- Zle_Qle.
Qed.

(** X25: a session does not stop while a card of its list is due.  When
    the list is a heap and the comparison [i <= x] of an integer with a
    float is monotone in the integer, [start_review] returns normally
    only with an empty list, with a list none of whose items is due at
    the last clock reading, or after a quit. *)
Theorem session_stops_with_nothing_due `{PyFloat} (clock : nat -> float)
    (items : list Item) (intervals : list float) (w : World)
    (items' : list Item) (w' : World) :
  (forall (i j : Z) (x : float),
      i <= j -> int_le_float j x = true -> int_le_float i x = true) ->
  is_heap items ->
  start_review clock items intervals w = Some (Ok items', w') ->
  items' = [] \/
  (exists t, ticks w' = S t /\
     forall it, it ∈ items' ->
       int_le_float (review_time it) (clock t) = false) \/
  (exists junk, stdin w = junk ++ "q"%string :: stdin w').
Proof.
  intros Hmono Hheap Hrun. unfold start_review in Hrun.
  pose proof (start_review_loop_is_heap clock _ _ _ _ _ _ Hrun Hheap _ eq_refl)
    as Hheap'.
  destruct (start_review_loop_guard clock _ _ _ _ _ _ Hrun) as (_ & _ & _ & Hexit).
  destruct (Hexit items' eq_refl)
    as [->|[(first & rest & t & -> & Hticks & Hnot)|Hquit]];
    [by left| |by right; right].
  right. left. exists t. split; [done|]. intros it Hit.
  pose proof (is_heap_first_min _ _ Hheap' it Hit) as Hle.
  destruct (int_le_float (review_time it) (clock t)) eqn:Hdue; [|done].
  by rewrite (Hmono _ _ _ Hle Hdue) in Hnot.
Qed.

Lemma session_stops_with_nothing_due_witness :
  let d := [DBRow.mk 1 0 0 0 0 "q1" "a1" "" "default";
            DBRow.mk 2 0 0 5000 2 "q2" "a2" "" "default"] in
  let w := mkWorld d ["a"; "r"]%string 0 [] in
  is_heap (load_items d []) /\
  exists items' w',
    start_review (H := Q_float) example_clock (load_items d [])
      example_intervals w = Some (Ok items', w') /\
    (items' = [] \/
     (exists t, ticks w' = S t /\
        forall it, it ∈ items' ->
          @int_le_float Q_float (review_time it) (example_clock t) = false) \/
     (exists junk, stdin w = junk ++ "q"%string :: stdin w')).
Proof.
  intros d w.
  assert (Hheap : is_heap (load_items d [])) by apply heapify_spec.
  split; [exact Hheap|].
  eexists _, _. split; [vm_compute; reflexivity|].
  refine (session_stops_with_nothing_due (H := Q_float) example_clock
            (load_items d []) example_intervals w _ _
            Q_float_monotone Hheap _).
  vm_compute. reflexivity.
Defined.

Lemma start_review_loop_stdout `{PyFloat} (clock : nat -> float)
    (intervals : list float) n items w r w' :
  start_review_loop clock n items intervals w = Some (r, w') ->
  exists evs, stdout w' = stdout w ++ evs /\ Forall session_event evs.
Proof.
  revert n items w r w'.
  assert (Hdue : forall items w b w1,
            due clock items w = (Ok b, w1) -> stdout w1 = stdout w).
  { intros items w b w1 Hdue.
    destruct (due_never_raises clock items w) as (b' & w1' & Hdue' & _ & _ & Hout & _).
    congruence. }
  apply (start_review_loop_ind clock intervals
           (fun items w r w' =>
              exists evs, stdout w' = stdout w ++ evs /\ Forall session_event evs)).
  - intros items w w1 Hd. exists []. by rewrite app_nil_r, (Hdue _ _ _ _ Hd).
  - intros items w w1 e w2 Hd Hb. rewrite <- (Hdue _ _ _ _ Hd).
    by eapply start_review_body_stdout.
  - intros items w w1 items' w2 Hd Hb. rewrite <- (Hdue _ _ _ _ Hd).
    by eapply start_review_body_stdout.
  - intros items w w1 items' w2 r w' Hd Hb (evs2 & -> & Hall2).
    apply start_review_body_stdout in Hb as (evs1 & -> & Hall1).
    rewrite (Hdue _ _ _ _ Hd). exists (evs1 ++ evs2).
    rewrite <- app_assoc. split; [done|]. by apply Forall_app.
Qed.

Lemma load_items_nil (d : DB) (decks : list string) :
  load_items d decks = [] <-> Forall (fun r => deck_selected decks r = false) d.
Proof.
  split.
  - intros Hnil. pose proof (load_items_perm d decks) as Hperm.
    rewrite Hnil in Hperm.
    apply Forall_forall. intros r Hr.
    destruct (deck_selected decks r) eqn:Hsel; [|done].
    assert (Hin : item_of_row r ∈ map item_of_row (List.filter (deck_selected decks) d)).
    { apply list_elem_of_fmap. exists r. split; [done|].
      apply list_elem_of_In, filter_In. split; [by apply list_elem_of_In|done]. }
    rewrite <- Hperm in Hin. by apply elem_of_nil in Hin.
  - intros Hall. apply Permutation_nil_r. rewrite load_items_perm.
    induction Hall as [|r d Hr _ IH]; [done|]. simpl. by rewrite Hr.
Qed.

(** X26: [main] says that no cards are scheduled exactly when no row of
    the table is in the chosen decks.  Then it prints that line and
    does nothing else: the clock and the input are not read and the
    table is not written.  With a row in the chosen decks the line is
    never printed. *)
Theorem main_review_no_cards `{PyFloat} (clock : nat -> float)
    (decks : list string) (intervals : list float) (w : World) :
  (Forall (fun r => deck_selected decks r = false) (db w) ->
   main_review clock decks intervals w =
     Some (Ok tt, mkWorld (db w) (stdin w) (ticks w) (stdout w ++ [NoCards]))) /\
  (Exists (fun r => deck_selected decks r = true) (db w) ->
   exists r w' evs,
     main_review clock decks intervals w = Some (r, w') /\
     stdout w' = stdout w ++ evs /\ NoCards ∉ evs).
Proof.
  split.
  - intros Hnone. apply load_items_nil in Hnone.
    unfold main_review. by rewrite Hnone.
  - intros Hsome. unfold main_review.
    destruct (load_items (db w) decks) as [|first l] eqn:Hload.
    { apply load_items_nil in Hload. apply Exists_exists in Hsome as (r & Hr & Hsel).
      rewrite Forall_forall in Hload.
      rewrite (Hload r Hr) in Hsel. done. }
    destruct (start_review_total clock (first :: l) intervals w) as (r & w1 & Hrun).
    rewrite Hrun. unfold start_review in Hrun.
    apply start_review_loop_stdout in Hrun as (evs & Hevs & Hall).
    assert (Hno : NoCards ∉ evs).
    { intros Hin. rewrite Forall_forall in Hall. by apply (Hall NoCards). }
    destruct r as [items'|e]; [|by exists (Raise e), w1, evs].
    rewrite M_bind_eq. unfold lift.
    destruct (getitem items' 0) as [first'|e]; [|by exists (Raise e), w1, evs].
    eexists (Ok tt), _, (evs ++ [NextReview (review_time first')]).
    split; [done|]. simpl. rewrite Hevs, <- app_assoc. split; [done|].
    intros [Hin|Hin%list_elem_of_singleton]%elem_of_app; done.
Qed.

Lemma main_review_no_cards_witness :
  Forall (fun r => deck_selected ["maths"%string] r = false) [card1] /\
  main_review (H := Q_float) example_clock ["maths"%string] example_intervals
    (mkWorld [card1] ["a"; "r"]%string 0 []) =
    Some (Ok tt, mkWorld [card1] ["a"; "r"]%string 0 [NoCards]) /\
  Exists (fun r => deck_selected ["default"%string] r = true) [card1] /\
  exists r w' evs,
    main_review (H := Q_float) example_clock ["default"%string] example_intervals
      (mkWorld [card1] ["a"; "r"]%string 0 []) = Some (r, w') /\
    stdout w' = [] ++ evs /\ NoCards ∉ evs.
Proof.
  assert (Hnone : Forall (fun r => deck_selected ["maths"%string] r = false) [card1]).
  { by repeat constructor. }
  assert (Hsome : Exists (fun r => deck_selected ["default"%string] r = true) [card1]).
  { by constructor. }
  split; [exact Hnone|]. split.
  { exact (proj1 (main_review_no_cards (H := Q_float) example_clock
                    ["maths"%string] example_intervals
                    (mkWorld [card1] ["a"; "r"]%string 0 [])) Hnone). }
  split; [exact Hsome|].
  exact (proj2 (main_review_no_cards (H := Q_float) example_clock
                  ["default"%string] example_intervals
                  (mkWorld [card1] ["a"; "r"]%string 0 [])) Hsome).
Defined.

(** X27: the review time that [main] reports after a session is the
    earliest one of the list that the session left: it belongs to an
    item of that list, and no item of the list has an earlier one. *)
Theorem next_review_is_earliest `{PyFloat} (clock : nat -> float)
    (decks : list string) (intervals : list float) (w w' : World) :
  load_items (db w) decks <> [] ->
  main_review clock decks intervals w = Some (Ok tt, w') ->
  exists items' w1 first,
    start_review clock (load_items (db w) decks) intervals w =
      Some (Ok items', w1) /\
    first ∈ items' /\
    (forall it, it ∈ items' -> review_time first <= review_time it) /\
    w' = mkWorld (db w1) (stdin w1) (ticks w1)
           (stdout w1 ++ [NextReview (review_time first)]).
Proof.
  intros Hload. unfold main_review.
  pose proof (proj1 (heapify_spec _) : is_heap (load_items (db w) decks)) as Hheap.
  destruct (load_items (db w) decks) as [|first0 l0]; [done|].
  destruct (start_review clock (first0 :: l0) intervals w)
    as [[[items'|e] w1]|] eqn:Hrun; [|done..].
  pose proof (start_review_loop_is_heap clock _ _ _ _ _ _ Hrun Hheap _ eq_refl)
    as Hheap'.
  rewrite M_bind_eq. unfold lift.
  destruct items' as [|first l]; [done|].
  change (getitem (first :: l) 0) with (Ok first : result Item).
  intros [= <-]. exists (first :: l), w1, first.
  split; [done|]. split; [by left|]. split; [|done].
  by apply is_heap_first_min.
Qed.

Lemma next_review_is_earliest_witness :
  let w := mkWorld [card1] ["a"; "r"]%string 0 [] in
  load_items (db w) [] <> [] /\
  exists w',
    main_review (H := Q_float) example_clock [] example_intervals w =
      Some (Ok tt, w') /\
    exists items' w1 first,
      start_review (H := Q_float) example_clock (load_items (db w) [])
        example_intervals w = Some (Ok items', w1) /\
      first ∈ items' /\
      (forall it, it ∈ items' -> review_time first <= review_time it) /\
      w' = mkWorld (db w1) (stdin w1) (ticks w1)
             (stdout w1 ++ [NextReview (review_time first)]).
Proof.
  intros w.
  assert (Hload : load_items (db w) [] <> []) by (vm_compute; discriminate).
  split; [exact Hload|].
  eexists. split; [vm_compute; reflexivity|].
  refine (next_review_is_earliest (H := Q_float) example_clock []
            example_intervals w _ Hload _).
  vm_compute. reflexivity.
Defined.

(** ** The heap operations on their own *)

(** X28: [heappop] on a heap that is not empty returns an item with the
    smallest [review_time] and leaves a heap that holds the other
    items; on the empty list it raises [IndexError]. *)
Theorem heappop_takes_minimum (h : list Item) :
  is_heap h ->
  (h = [] -> heappop h = Raise IndexError) /\
  (h <> [] ->
   exists x h',
     heappop h = Ok (x, h') /\ is_heap h' /\ h ≡ₚ x :: h' /\
     forall y, y ∈ h -> review_time x <= review_time y).
Proof.
  intros Hheap. split; [by intros ->|]. intros Hne.
  destruct h as [|first l]; [done|].
  destruct (heappop_cons first l) as (h' & Hpop & Hperm).
  destruct (heappop_is_heap _ _ _ Hheap Hpop) as [Hheap' _].
  exists first, h'. split; [done|]. split; [done|]. split; [by rewrite Hperm|].
  by apply is_heap_first_min.
Qed.

Lemma heappop_takes_minimum_witness :
  let h := heappush (heappush [mkItem 1 50 0] (mkItem 2 20 0)) (mkItem 3 30 0) in
  is_heap h /\
  exists x h',
    heappop h = Ok (x, h') /\ is_heap h' /\ h ≡ₚ x :: h' /\
    forall y, y ∈ h -> review_time x <= review_time y.
Proof.
  intros h.
  assert (Hheap : is_heap h).
  { apply heappush_spec, heappush_spec. intros i Hi. simpl in Hi. lia. }
  split; [exact Hheap|].
  apply (proj2 (heappop_takes_minimum h Hheap)). vm_compute. discriminate.
Defined.

(** X29: [heappush] on a heap gives a heap that holds the pushed item
    and the items of the heap, each as often as before. *)
Theorem heappush_keeps_heap (h : list Item) (item : Item) :
  is_heap h ->
  is_heap (heappush h item) /\ heappush h item ≡ₚ item :: h.
Proof. apply heappush_spec. Qed.

Lemma heappush_keeps_heap_witness :
  is_heap [mkItem 1 50 0] /\
  is_heap (heappush [mkItem 1 50 0] (mkItem 2 20 0)) /\
  heappush [mkItem 1 50 0] (mkItem 2 20 0) ≡ₚ [mkItem 2 20 0; mkItem 1 50 0].
Proof.
  assert (Hheap : is_heap [mkItem 1 50 0]).
  { intros i Hi. simpl in Hi. lia. }
  split; [exact Hheap|].
  exact (heappush_keeps_heap [mkItem 1 50 0] (mkItem 2 20 0) Hheap).
Defined.

(** ** The decks named on the command line *)

Lemma str_split_pieces (sep : ascii) (s : list ascii) :
  str_split sep s <> [] /\ Forall (fun p => sep ∉ p) (str_split sep s).
Proof.
  induction s as [|c s [Hne Hall]]; simpl.
  - split; [done|]. constructor; [|done]. by intros ?%elem_of_nil.
  - destruct (Ascii.eqb_spec c sep) as [->|Hc].
    + split; [done|]. constructor; [|done]. by intros ?%elem_of_nil.
    + destruct (str_split sep s) as [|p ps]; [done|].
      split; [done|]. apply Forall_cons in Hall as [Hp Hps].
      constructor; [|done]. intros [?|?]%elem_of_cons; [by subst|done].
Qed.

Lemma str_split_no_sep (sep : ascii) (s : list ascii) :
  sep ∉ s -> str_split sep s = [s].
Proof.
  induction s as [|c s IH]; [done|]. intros Hs. simpl.
  destruct (Ascii.eqb_spec c sep) as [->|Hc]; [destruct Hs; by left|].
  rewrite IH; [done|]. intros Hin. apply Hs. by right.
Qed.

Lemma str_split_only_sep (sep : ascii) (s : list ascii) :
  Forall (fun c => c = sep) s -> Forall (fun p => p = []) (str_split sep s).
Proof.
  induction 1 as [|c s -> _ IH]; simpl; [by repeat constructor|].
  rewrite Ascii.eqb_refl. by constructor.
Qed.

(** X30: the decks read from [--decks].  No deck of the list is empty
    or contains a comma; an option that, once stripped, holds only
    commas (the default, the empty string, included) gives the empty
    list, for which [load_items] selects every row; and an option
    without comma that is not blank gives the one deck that it names,
    stripped. *)
Theorem args_decks_spec (isspace : ascii -> bool) (decks : string) (d : DB) :
  let s := str_strip isspace (list_ascii_of_string decks) in
  Forall (fun deck => deck <> ""%string /\ ","%char ∉ list_ascii_of_string deck)
    (args_decks isspace decks) /\
  (Forall (fun c => c = ","%char) s ->
     args_decks isspace decks = [] /\
     load_items d (args_decks isspace decks) ≡ₚ map item_of_row d) /\
  (s <> [] -> ","%char ∉ s ->
     args_decks isspace decks = [string_of_list_ascii s]).
Proof.
  intros s. unfold args_decks. fold s. split; [|split].
  - apply Forall_forall. intros deck (p & -> & Hp)%list_elem_of_fmap.
    apply list_elem_of_In, filter_In in Hp as [Hp Hlen].
    rewrite list_ascii_of_string_of_list_ascii. split.
    + destruct p; [done|]. done.
    + destruct (str_split_pieces "," s) as [_ Hall].
      rewrite Forall_forall in Hall. apply Hall. by apply list_elem_of_In.
  - intros Hs. apply str_split_only_sep in Hs.
    assert (Hnil : List.filter (fun p => negb (Nat.eqb (length p) 0))
                     (str_split "," s) = []).
    { induction Hs as [|p ps -> _ IH]; [done|]. simpl. exact IH. }
    rewrite Hnil. split; [done|]. simpl. rewrite load_items_perm.
    f_equiv. f_equal. induction d as [|r d IH]; [done|]. simpl. by rewrite IH.
  - intros Hne Hs. rewrite str_split_no_sep by done. simpl.
    by destruct s.
Qed.

Lemma args_decks_spec_witness :
  let isspace := fun c => Ascii.eqb c " " in
  args_decks isspace "" = [] /\
  args_decks isspace " , " = [] /\
  args_decks isspace " maths " = ["maths"%string] /\
  args_decks isspace "maths,,default" = ["maths"; "default"]%string /\
  load_items [card1] (args_decks isspace ",") ≡ₚ map item_of_row [card1].
Proof.
  intros isspace. repeat (split; [reflexivity|]).
  apply (proj1 (proj2 (args_decks_spec isspace "," [card1]))).
  by repeat constructor.
Defined.
